(** * fsWebui backend: the chat turn, the tool filter and the rules cache

  A shallow embedding of [backend/handlers/chat.ts] and
  [backend/rules/loader.ts], followed by the rules endpoints
  ([backend/handlers/rules.ts]), the content types of [backend/app.ts] and,
  of the frontend, the message types of [config/safety.ts], the code blocks
  of [CodeBlockRenderer.tsx] and the rules filter of [ChatMessages.tsx].

  - JavaScript strings are [string]; only equality, [startsWith],
    [substring(1)], [includes] and concatenation are used by the code.
  - A thrown value is any value: [Js.Thrown] describes it by what the
    probes of the [catch] blocks make of it, each of which may throw.
  - Asynchronous code runs in the monad [Async]: a computation reads the
    environment (the SDK engine, the file system, the other tasks of the
    event loop), threads the [World] (the shared heap of the process) and
    either returns or throws, while recording the values it yields.
  - The [Map<string, AbortController>] shared between the chat and abort
    handlers is a [gmap string AbortController] stored in the heap.
  - The strings of the frontend are lists of UTF-16 code units, since the
    code there counts and compares code units. *)

From Stdlib Require Import Ascii.
From stdpp Require Import gmap strings list fin_maps.

(** ** JavaScript values used by the handlers *)

Module Js.

(** [s.startsWith(p)] *)
Definition startsWith (s p : string) : bool := String.prefix p s.

(** [s.substring(n)]: the string without its first [n] code units. *)
Fixpoint substring_from (n : nat) (s : string) : string :=
  match n, s with
  | O, _ => s
  | S n', String _ rest => substring_from n' rest
  | S _, EmptyString => EmptyString
  end.

(** [s.includes(needle)] *)
Fixpoint includes (s needle : string) : bool :=
  startsWith s needle ||
  match s with
  | EmptyString => false
  | String _ rest => includes rest needle
  end.

(** Truthiness of a value of type [string | undefined]: [undefined] and the
    empty string are falsy, every other string is truthy. *)
Definition truthy (v : option string) : bool :=
  match v with
  | Some s => negb (String.eqb s "")
  | None => false
  end.

(** [a || b] on strings. *)
Definition or_else (a b : string) : string :=
  if String.eqb a "" then b else a.

(** A thrown value can be any value of the language.  The handlers probe
    it in four ways, [error instanceof Error], [error.message],
    [error.name] and [String(error)], and each probe may itself throw (a
    proxy trap, an accessor, a value without a string conversion).  A
    property value that is not a string is used for its truthiness and for
    what a call of its [includes] does; the Boolean is the truthiness of
    what that call returns. *)
#[local] Unset Elimination Schemes.
Inductive Thrown : Type :=
| Raised (instance : Thrown + bool) (message name : Thrown + Value)
    (conversion : Thrown + string)
with Value : Type :=
| Str (s : string)
| NotStr (truthy : bool) (includes : string -> Thrown + bool).
#[local] Set Elimination Schemes.

(** [error instanceof Error] *)
Definition instanceof_Error (error : Thrown) : Thrown + bool :=
  match error with
  | Raised instance _ _ _ => instance
  end.

(** [error.message] and [error.name] *)
Definition message_of (error : Thrown) : Thrown + Value :=
  match error with
  | Raised _ message _ _ => message
  end.

Definition name_of (error : Thrown) : Thrown + Value :=
  match error with
  | Raised _ _ name _ => name
  end.

(** [String(error)] *)
Definition String_ (error : Thrown) : Thrown + string :=
  match error with
  | Raised _ _ _ conversion => conversion
  end.

(** [v === s] for a string [s] *)
Definition strict_equal (v : Value) (s : string) : bool :=
  match v with
  | Str t => String.eqb t s
  | NotStr _ _ => false
  end.

(** [v.includes(needle)] *)
Definition includes_of (v : Value) (needle : string) : Thrown + bool :=
  match v with
  | Str s => inr (includes s needle)
  | NotStr _ answer => answer needle
  end.

(** Truthiness of a value. *)
Definition truthy_value (v : Value) : bool :=
  match v with
  | Str s => negb (String.eqb s "")
  | NotStr truthy _ => truthy
  end.

(** [Error.prototype.toString] for a string [name] and [message]. *)
Definition Error_toString (name message : string) : string :=
  if String.eqb name "" then message
  else if String.eqb message "" then name
  else name +:+ ": " +:+ message.

(** An [Error] object with the given [name] and [message], such as
    [new Error(message)], whose name is ["Error"]. *)
Definition ThrownError (name message : string) : Thrown :=
  Raised (inr true) (inr (Str message)) (inr (Str name))
    (inr (Error_toString name message)).

(** [undefined]: falsy, and a call of a method on it throws. *)
Definition undefined : Value :=
  NotStr false
    (fun _ =>
       inl (ThrownError "TypeError"
              "Cannot read properties of undefined (reading 'includes')")).

(** A value that is not an [Error], has neither [message] nor [name], and
    whose string conversion is [text]: a thrown string, for one. *)
Definition ThrownOther (text : string) : Thrown :=
  Raised (inr false) (inr undefined) (inr undefined) (inr text).

(** [error instanceof Error ? error.message : String(error)] *)
Definition message_or_String (error : Thrown) : Thrown + Value :=
  match instanceof_Error error with
  | inl e => inl e
  | inr true => message_of error
  | inr false =>
      match String_ error with
      | inl e => inl e
      | inr s => inr (Str s)
      end
  end.


(** An opaque JSON document: the payload of an SDK message. *)
#[local] Unset Elimination Schemes.
Inductive Json : Type :=
| JNull
| JBool (b : bool)
| JNumber (n : Z)
| JString (s : string)
| JArray (items : list Json)
| JObject (fields : list (string * Json)).
#[local] Set Elimination Schemes.

End Js.

(** ** The tool-permission filter ([getAllowedTools]) *)

Module Tools.

Definition READ_ONLY_TOOLS : list string :=
  ["Read"; "Grep"; "Glob"; "LSP"; "Task"].

Definition BLOCKED_WRITE_TOOLS : list string :=
  ["Write"; "Edit"; "Delete"; "Move"; "Bash"].

(** [BLOCKED_WRITE_TOOLS.some(blocked => tool === blocked
      || tool.startsWith(blocked + "("))] *)
Definition is_blocked (tool : string) : bool :=
  existsb
    (fun blocked =>
       String.eqb tool blocked || Js.startsWith tool (blocked +:+ "("))
    BLOCKED_WRITE_TOOLS.

(** [tools.includes(tool)] *)
Definition includes (tools : list string) (tool : string) : bool :=
  existsb (String.eqb tool) tools.

(** One iteration of [for (const tool of frontendAllowedTools)]; the
    array [tools] is the loop state. *)
Definition loop_body (tools : list string) (tool : string) : list string :=
  if is_blocked tool then tools
  else if negb (includes tools tool) then tools ++ [tool]
  else tools.

Definition getAllowedTools (frontendAllowedTools : option (list string))
  : list string :=
  let tools := READ_ONLY_TOOLS in
  match frontendAllowedTools with
  | Some approved => fold_left loop_body approved tools
  | None => tools
  end.

(** *** The filter as the specification words it *)

(** A tool name matches the blocklist when it equals an entry, or starts
    with an entry followed by an opening parenthesis. *)
Definition blocklisted (tool : string) : Prop :=
  exists blocked, blocked ∈ BLOCKED_WRITE_TOOLS /\
    (tool = blocked \/ exists args, tool = blocked +:+ "(" +:+ args).

(** The reading under which having a blocklisted name as a mere prefix is
    enough. *)
Definition has_blocked_prefix (tool : string) : Prop :=
  exists blocked rest, blocked ∈ BLOCKED_WRITE_TOOLS /\
    tool = blocked +:+ rest.

(** De-duplication that keeps the first occurrence of every entry. *)
Fixpoint dedup (l : list string) : list string :=
  match l with
  | [] => []
  | x :: rest => x :: filter (fun y => y <> x) (dedup rest)
  end.

(** The user-approved entries that survive: not blocklisted, first
    occurrences only, not already in the baseline. *)
Definition kept_entries (userApproved : option (list string))
  : list string :=
  filter (fun t => t ∉ READ_ONLY_TOOLS)
    (dedup (filter (fun t => is_blocked t = false)
              (default [] userApproved))).

(** Baseline first, then the user-approved entries that are not
    blocklisted, in their original order, without duplicates. *)
Definition allowed_tool_set (userApproved : option (list string))
  : list string :=
  dedup (READ_ONLY_TOOLS ++
         filter (fun t => is_blocked t = false) (default [] userApproved)).

End Tools.

(** ** The process: shared heap, environment and asynchronous computations *)

Module Runtime.

(** [new AbortController()] yields a fresh object; its identity is the
    number of controllers constructed before it. *)
Record AbortController : Type := { controller_id : nat }.

(** [StreamResponse], a union tagged by [type]:
    ["claude_json"], ["done"], ["aborted"], ["error"]. *)
Inductive StreamResponse : Type :=
| ClaudeJson (data : Js.Json)
| Done
| Aborted
| Error (error : Js.Value).

(** Values stored in the [options] object handed to the SDK. *)
Inductive OptionValue : Type :=
| VController (c : AbortController)
| VString (s : string)
| VStrings (l : list string).

(** An object literal is built member by member, in source order: a
    property [key: value] or a spread [...obj]. *)
Inductive Member : Type :=
| Property (key : string) (value : OptionValue)
| Spread (obj : gmap string OptionValue).

Definition object_literal (members : list Member)
  : gmap string OptionValue :=
  fold_left
    (fun obj m =>
       match m with
       | Property key value => <[key := value]> obj
       | Spread src => src ∪ obj
       end)
    members ∅.

(** The argument of [query({ prompt, options })]. *)
Record QueryCall : Type :=
  { prompt : string; options : gmap string OptionValue }.

(** What iterating the SDK's async sequence does: it delivers [emitted],
    then ends, or raises [failure]. *)
Record EngineRun : Type :=
  { emitted : list Js.Json; failure : option Js.Thrown }.

(** The state shared by all tasks of the process: the abort-controller
    map created in [createApp] and the module variables of the rules
    loader. *)
Record Heap : Type :=
  { requestAbortControllers : gmap string AbortController;
    cachedRules : option string;
    rulesPath : option string }.

(** Everything outside the modelled code.  [others n] is what the other
    tasks of the event loop do to the heap while this task is suspended
    for the [n]-th time. *)
Record Env : Type :=
  { engine : QueryCall -> EngineRun;
    others : nat -> Heap -> Heap;
    existsSync : string -> bool;
    readFile : string -> Js.Thrown + string }.

(** [engine_log] is ghost state: the calls made to [query], oldest
    first. *)
Record World : Type :=
  { heap : Heap;
    created : nat;
    suspensions : nat;
    engine_log : list QueryCall }.

Record Result (A : Type) : Type :=
  { outcome : Js.Thrown + A;
    yielded : list StreamResponse;
    world : World }.
Arguments outcome {A} _.
Arguments yielded {A} _.
Arguments world {A} _.

Definition Async (A : Type) : Type := Env -> World -> Result A.

Definition returns {A} (a : A) : Async A :=
  fun _ w => {| outcome := inr a; yielded := []; world := w |}.

Definition throw {A} (e : Js.Thrown) : Async A :=
  fun _ w => {| outcome := inl e; yielded := []; world := w |}.

Definition bind {A B} (k : A -> Async B) (m : Async A) : Async B :=
  fun env w =>
    let r := m env w in
    match outcome r with
    | inl e => {| outcome := inl e; yielded := yielded r; world := world r |}
    | inr a =>
        let r' := k a env (world r) in
        {| outcome := outcome r';
           yielded := yielded r ++ yielded r';
           world := world r' |}
    end.

#[export] Instance Async_ret : MRet Async := @returns.
#[export] Instance Async_bind : MBind Async := @bind.

(** [try { body } catch (error) { handler }] *)
Definition try_catch {A} (body : Async A) (handler : Js.Thrown -> Async A)
  : Async A :=
  fun env w =>
    let r := body env w in
    match outcome r with
    | inl e =>
        let r' := handler e env (world r) in
        {| outcome := outcome r';
           yielded := yielded r ++ yielded r';
           world := world r' |}
    | inr _ => r
    end.

(** [try { body } finally { cleanup }]: the cleanup runs on every exit of
    the body; an exception of the cleanup replaces the body's outcome. *)
Definition try_finally {A} (body : Async A) (cleanup : Async unit)
  : Async A :=
  fun env w =>
    let r := body env w in
    let r' := cleanup env (world r) in
    {| outcome :=
         match outcome r' with
         | inl e => inl e
         | inr _ => outcome r
         end;
       yielded := yielded r ++ yielded r';
       world := world r' |}.

Definition ask : Async Env :=
  fun env w => {| outcome := inr env; yielded := []; world := w |}.

Definition get_heap : Async Heap :=
  fun _ w => {| outcome := inr (heap w); yielded := []; world := w |}.

Definition put_heap (h : Heap) : Async unit :=
  fun _ w =>
    {| outcome := inr tt; yielded := [];
       world := {| heap := h; created := created w;
                   suspensions := suspensions w;
                   engine_log := engine_log w |} |}.

(** The task gives up control; the other tasks run. *)
Definition suspend : Async unit :=
  fun env w =>
    {| outcome := inr tt; yielded := [];
       world := {| heap := others env (suspensions w) (heap w);
                   created := created w;
                   suspensions := S (suspensions w);
                   engine_log := engine_log w |} |}.

(** The world after [n] further suspensions of the task. *)
Fixpoint after_suspensions (others : nat -> Heap -> Heap) (n : nat)
  (w : World) : World :=
  match n with
  | O => w
  | S n' =>
      after_suspensions others n'
        {| heap := others (suspensions w) (heap w);
           created := created w;
           suspensions := S (suspensions w);
           engine_log := engine_log w |}
  end.

(** An expression that evaluates to a value, or throws. *)
Definition evaluate {A} (result : Js.Thrown + A) : Async A :=
  match result with
  | inl e => throw e
  | inr a => mret a
  end.

(** [await p], for a promise that settles with [settled]. *)
Definition await {A} (settled : Js.Thrown + A) : Async A :=
  suspend ;;
  match settled with
  | inl e => throw e
  | inr a => mret a
  end.

(** [yield v] in an async generator: the value is handed to the consumer
    and the generator is suspended until the next value is requested. *)
Definition yield (v : StreamResponse) : Async unit :=
  (fun _ w => {| outcome := inr tt; yielded := [v]; world := w |}) ;;
  suspend.

Definition new_AbortController : Async AbortController :=
  fun _ w =>
    {| outcome := inr {| controller_id := created w |}; yielded := [];
       world := {| heap := heap w; created := S (created w);
                   suspensions := suspensions w;
                   engine_log := engine_log w |} |}.

(** [query(call)]: the SDK returns the async sequence [engine call]. *)
Definition query (call : QueryCall) : Async EngineRun :=
  fun env w =>
    {| outcome := inr (engine env call); yielded := [];
       world := {| heap := heap w; created := created w;
                   suspensions := suspensions w;
                   engine_log := engine_log w ++ [call] |} |}.

(** [for await (const x of run) { body(x) }] *)
Fixpoint for_each (items : list Js.Json) (body : Js.Json -> Async unit)
  : Async unit :=
  match items with
  | [] => mret tt
  | x :: rest => suspend ;; body x ;; for_each rest body
  end.

Definition for_await (run : EngineRun) (body : Js.Json -> Async unit)
  : Async unit :=
  for_each (emitted run) body ;;
  suspend ;;
  match failure run with
  | Some e => throw e
  | None => mret tt
  end.

(** Operations of the shared [Map]. *)
Definition map_set (key : string) (c : AbortController) : Async unit :=
  h ← get_heap;
  put_heap {| requestAbortControllers :=
                <[key := c]> (requestAbortControllers h);
              cachedRules := cachedRules h;
              rulesPath := rulesPath h |}.

Definition map_has (key : string) : Async bool :=
  h ← get_heap;
  mret (bool_decide (is_Some (requestAbortControllers h !! key))).

Definition map_delete (key : string) : Async unit :=
  h ← get_heap;
  put_heap {| requestAbortControllers :=
                delete key (requestAbortControllers h);
              cachedRules := cachedRules h;
              rulesPath := rulesPath h |}.

Definition set_cachedRules (v : option string) : Async unit :=
  h ← get_heap;
  put_heap {| requestAbortControllers := requestAbortControllers h;
              cachedRules := v;
              rulesPath := rulesPath h |}.

End Runtime.

(** ** The rules loader ([backend/rules/loader.ts]) *)

Module Loader.
Import Runtime.

(** Default rules when RULES.md is not found. *)
Definition DEFAULT_RULES : string :=
"# Claude 代码分析助手规则

你是一个专业的代码分析助手，帮助测试人员理解代码逻辑。

## 可用能力（只读）
- 读取代码文件
- 搜索代码内容
- 查找文件路径
- 代码定义跳转

## 回答规范
1. **优先用文字描述**代码的功能和逻辑
2. 可以使用**流程图、架构图**展示系统设计
3. 避免**直接输出大段源码**
4. 如需展示代码，只展示**关键片段**或**折叠显示**

## 回答风格
- 简洁直接
- 重点突出
- 从测试视角解释代码逻辑
".

(** [loadRules()].  The module variables [rulesPath] and [cachedRules]
    live in the heap; [existsSync] and [readFile] are the file system of
    the environment. *)
Definition loadRules : Async string :=
  h ← get_heap;
  match rulesPath h with
  | Some path =>
      if negb (Js.truthy (Some path)) then mret DEFAULT_RULES
      else
        fs ← ask;
        if negb (existsSync fs path) then
          set_cachedRules (Some DEFAULT_RULES) ;;
          mret DEFAULT_RULES
        else
          try_catch
            (content ← await (readFile fs path);
             set_cachedRules (Some content) ;;
             mret content)
            (fun error =>
               set_cachedRules (Some DEFAULT_RULES) ;;
               mret DEFAULT_RULES)
  | None => mret DEFAULT_RULES
  end.

(** [getCachedRules()]: [cachedRules ?? DEFAULT_RULES]. *)
Definition getCachedRules : Async string :=
  h ← get_heap;
  mret (default DEFAULT_RULES (cachedRules h)).

(** The world in which the cache holds [rules]. *)
Definition cached (w : World) (rules : string) : World :=
  {| heap := {| requestAbortControllers :=
                  requestAbortControllers (heap w);
                cachedRules := Some rules;
                rulesPath := rulesPath (heap w) |};
     created := created w;
     suspensions := suspensions w;
     engine_log := engine_log w |}.

(** [reloadRules()] *)
Definition reloadRules : Async string := loadRules.

(** [getCurrentRules()] *)
Definition getCurrentRules : Async string := getCachedRules.

End Loader.

(** ** The chat handler ([backend/handlers/chat.ts]) *)

Module Chat.
Import Runtime.

(** The text between the rules and the message in the template literal of
    [prepareMessageWithRules]. *)
Definition SEPARATOR : string := "

---
User message: ".

Definition prepareMessageWithRules (message : string)
  (sessionId : option string) : Async string :=
  if Js.truthy sessionId then mret message
  else
    rules ← Loader.getCachedRules;
    mret (rules +:+ SEPARATOR +:+ message).

(** [v ? { key: v } : {}] for an optional string [v]. *)
Definition when_truthy (v : option string) (key : string)
  : gmap string OptionValue :=
  match v with
  | Some s => if Js.truthy v then {[ key := VString s ]} else ∅
  | None => ∅
  end.

(** The [options] object literal of the call to [query]. *)
Definition query_options (abortController : AbortController)
  (cliPath : string) (sessionId : option string)
  (safeAllowedTools : list string)
  (workingDirectory permissionMode : option string)
  : gmap string OptionValue :=
  object_literal
    [ Property "abortController" (VController abortController);
      Property "executable" (VString "node");
      Property "executableArgs" (VStrings []);
      Property "pathToClaudeCodeExecutable" (VString cliPath);
      Spread (when_truthy sessionId "resume");
      Property "allowedTools" (VStrings safeAllowedTools);
      Spread (when_truthy workingDirectory "cwd");
      Spread (when_truthy permissionMode "permissionMode") ].

(** The [try] block of [executeClaudeCommand]. *)
Definition try_block
  (message requestId cliPath : string)
  (sessionId : option string)
  (allowedTools : option (list string))
  (workingDirectory permissionMode : option string) : Async unit :=
  let processedMessage :=
    if Js.startsWith message "/" then Js.substring_from 1 message
    else message in
  abortController ← new_AbortController;
  map_set requestId abortController ;;
  let safeAllowedTools := Tools.getAllowedTools allowedTools in
  messageWithRules ← prepareMessageWithRules processedMessage sessionId;
  run ← query
    {| prompt := messageWithRules;
       options := query_options abortController cliPath sessionId
                    safeAllowedTools workingDirectory permissionMode |};
  for_await run (fun sdkMessage => yield (ClaudeJson sdkMessage)) ;;
  yield Done.

(** The [catch (error)] block. *)
Definition catch_block (error : Js.Thrown) : Async unit :=
  isError ← evaluate (Js.instanceof_Error error);
  errorMessage ←
    (if isError : bool then evaluate (Js.message_of error)
     else mret (Js.Str ""));
  errorName ←
    (if isError : bool then evaluate (Js.name_of error)
     else mret (Js.Str ""));
  isAbort ←
    (if Js.strict_equal errorName "AbortError" then mret true
     else evaluate (Js.includes_of errorMessage "aborted by user"));
  if isAbort : bool then yield Aborted
  else
    text ←
      (if Js.truthy_value errorMessage then mret errorMessage
       else evaluate (Js.String_ error) ≫= fun s => mret (Js.Str s));
    yield (Error text).

(** The [finally] block. *)
Definition finally_block (requestId : string) : Async unit :=
  map_has requestId ≫= fun has : bool =>
  if has then map_delete requestId else mret tt.

(** The async generator [executeClaudeCommand].  The map
    [requestAbortControllers] it receives is the one in the heap. *)
Definition executeClaudeCommand
  (message requestId cliPath : string)
  (sessionId : option string)
  (allowedTools : option (list string))
  (workingDirectory permissionMode : option string) : Async unit :=
  try_finally
    (try_catch
       (try_block message requestId cliPath sessionId allowedTools
          workingDirectory permissionMode)
       catch_block)
    (finally_block requestId).

(** *** Vocabulary of the specification *)

Definition is_terminal (ev : StreamResponse) : bool :=
  match ev with
  | ClaudeJson _ => false
  | Done | Aborted | Error _ => true
  end.






(** What the [catch] block makes of a failure: the event it yields, or
    what it throws itself before it has yielded any. *)
Definition caught (error : Js.Thrown) : Js.Thrown + StreamResponse :=
  match Js.instanceof_Error error with
  | inl e => inl e
  | inr false =>
      match Js.String_ error with
      | inl e => inl e
      | inr s => inr (Error (Js.Str s))
      end
  | inr true =>
      match Js.message_of error with
      | inl e => inl e
      | inr message =>
          match Js.name_of error with
          | inl e => inl e
          | inr name =>
              match
                (if Js.strict_equal name "AbortError" then inr true
                 else Js.includes_of message "aborted by user")
              with
              | inl e => inl e
              | inr true => inr Aborted
              | inr false =>
                  if Js.truthy_value message then inr (Error message)
                  else
                    match Js.String_ error with
                    | inl e => inl e
                    | inr s => inr (Error (Js.Str s))
                    end
              end
          end
      end
  end.

(** How a turn ends whose engine run ended with [ending]: with a terminal
    event, or with what the [catch] block threw. *)
Definition terminal_event (ending : option Js.Thrown)
  : Js.Thrown + StreamResponse :=
  match ending with
  | None => inr Done
  | Some e => caught e
  end.

(** The events of a turn that runs to its end. *)
Definition events_of (run : EngineRun) : list StreamResponse :=
  (ClaudeJson <$> emitted run)
  ++ match terminal_event (failure run) with
     | inr final => [final]
     | inl _ => []
     end.

(** The number of times the generator is suspended in such a turn. *)
Definition steps_of (run : EngineRun) : nat :=
  length (emitted run) * 2
  + match terminal_event (failure run) with
    | inr _ => 2
    | inl _ => 1
    end.

(** The message without its command marker. *)
Definition strip_slash (message : string) : string :=
  match message with
  | String "/"%char rest => rest
  | _ => message
  end.

(** The prompt of a new conversation. *)
Definition with_rules (rules message : string) : string :=
  rules +:+ "

---
User message: " +:+ message.

(** The Rules Document a turn started in world [w] reads. *)
Definition rules_document (w : World) : string :=
  default Loader.DEFAULT_RULES (cachedRules (heap w)).

(** What the Rule Injector makes of [message]. *)
Definition injected (w : World) (sessionId : option string)
  (message : string) : string :=
  if Js.truthy sessionId then message
  else with_rules (rules_document w) message.

(** An optional request field that was actually provided. *)
Definition provided (v : option string) : option string :=
  match v with
  | Some EmptyString => None
  | _ => v
  end.

(** The last call the engine received. *)
Definition engine_saw (w : World) : option QueryCall :=
  last (engine_log w).

(** The world in which the generator consumes the engine's sequence: the
    controller is registered and the call is logged. *)
Definition started (w : World) (requestId : string) (call : QueryCall)
  : World :=
  {| heap :=
       {| requestAbortControllers :=
            <[requestId := {| controller_id := created w |}]>
              (requestAbortControllers (heap w));
          cachedRules := cachedRules (heap w);
          rulesPath := rulesPath (heap w) |};
     created := S (created w);
     suspensions := suspensions w;
     engine_log := engine_log w ++ [call] |}.

(** The world once the entry of [requestId] is released. *)
Definition released (w : World) (requestId : string) : World :=
  {| heap :=
       {| requestAbortControllers :=
            delete requestId (requestAbortControllers (heap w));
          cachedRules := cachedRules (heap w);
          rulesPath := rulesPath (heap w) |};
     created := created w;
     suspensions := suspensions w;
     engine_log := engine_log w |}.

End Chat.

(** ** Concrete environments and worlds *)

Module Fixtures.
Import Runtime.

(** An engine that delivers [run] whatever it is asked, no other task,
    and no rules file. *)
Definition quiet_env (run : EngineRun) : Env :=
  {| engine := fun _ => run;
     others := fun _ h => h;
     existsSync := fun _ => false;
     readFile := fun _ => inl (Js.ThrownError "Error" "ENOENT") |}.

(** A file system in which every path exists but cannot be read. *)
Definition unreadable_env : Env :=
  {| engine := fun _ => {| emitted := []; failure := None |};
     others := fun _ h => h;
     existsSync := fun _ => true;
     readFile := fun _ => inl (Js.ThrownError "Error" "EACCES") |}.

(** A run that delivers one message and is then cancelled; the message
    is the one the SDK raises on abort. *)
Definition cancelled_run : EngineRun :=
  {| emitted := [Js.JNull];
     failure :=
       Some (Js.ThrownError "Error"
               "Claude Code process aborted by user") |}.

(** [Object.create(null)]: not an [Error], without properties, and
    without a string conversion. *)
Definition bare_object : Js.Thrown :=
  Js.Raised (inr false) (inr Js.undefined) (inr Js.undefined)
    (inl (Js.ThrownError "TypeError"
            "Cannot convert object to primitive value")).



(** A file system in which every path holds [content]. *)
Definition readable_env (content : string) : Env :=
  {| engine := fun _ => {| emitted := []; failure := None |};
     others := fun _ h => h;
     existsSync := fun _ => true;
     readFile := fun _ => inr content |}.

Definition fresh_heap : Heap :=
  {| requestAbortControllers := ∅;
     cachedRules := None;
     rulesPath := None |}.

Definition fresh_world : World :=
  {| heap := fresh_heap; created := 0; suspensions := 0;
     engine_log := [] |}.

(** A world in which the request [r1] is running. *)
Definition busy_world : World :=
  {| heap := {| requestAbortControllers :=
                  {[ "r1" := {| controller_id := 0 |} ]};
                cachedRules := None;
                rulesPath := None |};
     created := 1; suspensions := 0; engine_log := [] |}.

Definition world_with_path (path : string) : World :=
  {| heap := {| requestAbortControllers := ∅;
                cachedRules := None;
                rulesPath := Some path |};
     created := 0; suspensions := 0; engine_log := [] |}.

End Fixtures.

(** ** The rules API handlers ([backend/handlers/rules.ts]) *)

Module RulesApi.
Import Runtime.

(** Number of UTF-16 code units of the text whose UTF-8 encoding is one
    byte: a continuation byte adds nothing, the lead byte of a four-byte
    sequence stands for a surrogate pair. *)
Definition utf16_units (c : ascii) : nat :=
  let n := nat_of_ascii c in
  if n <? 128 then 1
  else if n <? 192 then 0
  else if n <? 240 then 1
  else 2.

(** [s.length] *)
Fixpoint length (s : string) : nat :=
  match s with
  | EmptyString => 0
  | String c rest => utf16_units c + length rest
  end.

(** The members of the object handed to [c.json]. *)
Inductive JsonField : Type :=
| FBool (b : bool)
| FString (s : string)
| FNumber (n : nat)
| FValue (v : Js.Value).

(** [c.json(object, status)]; the status is 200 when it is not given. *)
Record Response : Type :=
  { status : nat; body : list (string * JsonField) }.

(** [handleGetRulesRequest] *)
Definition handleGetRulesRequest : Async Response :=
  try_catch
    (rules ← Loader.getCurrentRules;
     mret {| status := 200;
             body := [ ("success", FBool true);
                       ("rules", FString rules);
                       ("length", FNumber (length rules)) ] |})
    (fun error =>
       text ← evaluate (Js.message_or_String error);
       mret {| status := 500;
               body := [ ("success", FBool false);
                         ("error", FValue text) ] |}).

(** [handleReloadRulesRequest] *)
Definition handleReloadRulesRequest : Async Response :=
  try_catch
    (rules ← Loader.reloadRules;
     mret {| status := 200;
             body := [ ("success", FBool true);
                       ("message", FString "Rules reloaded successfully");
                       ("rules", FString rules);
                       ("length", FNumber (length rules)) ] |})
    (fun error =>
       text ← evaluate (Js.message_or_String error);
       mret {| status := 500;
               body := [ ("success", FBool false);
                         ("error", FValue text) ] |}).



End RulesApi.

(** ** Content types of static assets ([backend/app.ts]) *)

Module App.





End App.

(** ** The safety configuration of the frontend
       ([frontend/src/config/safety.ts]) *)

Module Safety.

Definition ALLOWED_MESSAGE_TYPES : gset string :=
  list_to_set ["user"; "assistant"].

Definition BLOCKED_MESSAGE_TYPES : gset string :=
  list_to_set ["system"; "tool"; "tool_result"; "thinking"; "todo"; "plan"].

Definition isMessageTypeAllowed (type : string) : bool :=
  bool_decide (type ∈ ALLOWED_MESSAGE_TYPES).

Definition FOLD_THRESHOLD : nat := 10.

End Safety.

(** ** Code blocks of a chat message
       ([frontend/src/components/CodeBlockRenderer.tsx])

    Here a JavaScript string is the list of its UTF-16 code units, so that
    indices and lengths are those of the code. *)

Module CodeBlocks.

(** Three backticks, the line feed, and the text ["text"]. *)
Definition FENCE : list N := [96; 96; 96]%N.
Definition LF : N := 10%N.
Definition TEXT : list N := [116; 101; 120; 116]%N.

(** [s.slice(from, to)] for [from <= to]. *)
Definition slice (s : list N) (from to : nat) : list N :=
  take (to - from) (drop from s).

(** [s] starts with [p]. *)
Definition starts_with (p s : list N) : bool :=
  bool_decide (take (length p) s = p).

(** The class [\w] of a regular expression without the unicode flag. *)
Definition is_word (c : N) : bool :=
  ((48 <=? c) && (c <=? 57) || (65 <=? c) && (c <=? 90)
   || (c =? 95) || (97 <=? c) && (c <=? 122))%N.

(** What the greedy group of word characters takes when a line feed must
    follow: the longest run of word characters. *)
Fixpoint word_run (s : list N) : list N :=
  match s with
  | c :: rest => if is_word c then c :: word_run rest else []
  | [] => []
  end.

(** What the lazy group of arbitrary characters takes before the closing
    fence: everything up to the first fence in [s], found at this index. *)
Fixpoint find_fence (s : list N) : option nat :=
  if starts_with FENCE s then Some 0
  else
    match s with
    | _ :: rest => S <$> find_fence rest
    | [] => None
    end.

(** The result of [exec]: [match.index], [match[0]], [match[1]] and
    [match[2]]. *)
Record RegExpMatch : Type :=
  { index : nat; whole : list N; group1 : list N; group2 : list N }.

(** The expression matched at the first position of [s], which is at index
    [at_index] of the content: a fence, the word run, a line feed, the
    text up to the next fence, and that fence. *)
Definition match_here (s : list N) (at_index : nat) : option RegExpMatch :=
  if starts_with FENCE s then
    let lang := word_run (drop 3 s) in
    match drop (length lang) (drop 3 s) with
    | c :: body =>
        if (c =? LF)%N then
          (fun j =>
             {| index := at_index;
                whole := FENCE ++ lang ++ [LF] ++ take j body ++ FENCE;
                group1 := lang;
                group2 := take j body |})
            <$> find_fence body
        else None
    | [] => None
    end
  else None.

(** The leftmost match in [s], the content from index [from] on. *)
Fixpoint exec_from (s : list N) (from : nat) : option RegExpMatch :=
  match match_here s from with
  | Some m => Some m
  | None =>
      match s with
      | _ :: rest => exec_from rest (S from)
      | [] => None
      end
  end.

(** [codeBlockRegex.exec(content)] when [codeBlockRegex.lastIndex] is
    [lastIndex]. *)
Definition exec (content : list N) (lastIndex : nat) : option RegExpMatch :=
  exec_from (drop lastIndex content) lastIndex.

Record CodeBlock : Type :=
  { language : list N;
    code : list N;
    startIndex : nat;
    endIndex : nat }.

Record Parsed : Type :=
  { textParts : list (list N); codeBlocks : list CodeBlock }.

(** [a || b] on strings. *)
Definition or_else (a b : list N) : list N :=
  match a with
  | [] => b
  | _ => a
  end.

(** The statements after the loop. *)
Definition finish (content : list N) (lastIndex : nat) (acc : Parsed)
  : Parsed :=
  {| textParts :=
       if lastIndex <? length content
       then textParts acc ++ [drop lastIndex content]
       else textParts acc;
     codeBlocks := codeBlocks acc |}.

(** The [while] loop of [parseCodeBlocks]: [acc] holds the two arrays,
    [fuel] bounds the number of iterations. *)
Fixpoint parse_loop (fuel : nat) (content : list N) (lastIndex : nat)
  (acc : Parsed) : Parsed :=
  match fuel with
  | O => finish content lastIndex acc
  | S fuel' =>
      match exec content lastIndex with
      | Some m =>
          parse_loop fuel' content (index m + length (whole m))
            {| textParts :=
                 if lastIndex <? index m
                 then textParts acc ++ [slice content lastIndex (index m)]
                 else textParts acc;
               codeBlocks :=
                 codeBlocks acc
                 ++ [ {| language := or_else (group1 m) TEXT;
                         code := group2 m;
                         startIndex := index m;
                         endIndex := index m + length (whole m) |} ] |}
      | None => finish content lastIndex acc
      end
  end.

(** [parseCodeBlocks(content)].  Every match is at least seven code units
    long, so the loop runs at most [length content] times. *)
Definition parseCodeBlocks (content : list N) : Parsed :=
  parse_loop (length content) content 0
    {| textParts := []; codeBlocks := [] |}.

(** [s.split("\n")] *)
Fixpoint split_lines (s : list N) : list (list N) :=
  match s with
  | [] => [[]]
  | c :: rest =>
      if (c =? LF)%N then [] :: split_lines rest
      else
        match split_lines rest with
        | line :: lines => (c :: line) :: lines
        | [] => [[c]]
        end
  end.

(** [lineCount] and [shouldFold] of the component [CodeBlock]. *)
Definition lineCount (block : CodeBlock) : nat :=
  length (split_lines (code block)).

Definition shouldFold (block : CodeBlock) : bool :=
  Safety.FOLD_THRESHOLD <? lineCount block.

(** *** Vocabulary *)

(** The text of the content a block stands for, as far as the block still
    tells: the opening fence, a language tag, a line feed, the code and the
    closing fence. *)
Definition fenced (tag body : list N) : list N :=
  FENCE ++ tag ++ [LF] ++ body ++ FENCE.

(** The number of code units of the content that the parts account for. *)
Definition covered (p : Parsed) : nat :=
  sum_list_with length (textParts p)
  + sum_list_with (fun b => endIndex b - startIndex b) (codeBlocks p).

(** A block as the loop makes it from a match in [content]. *)
Definition block_of (content : list N) (b : CodeBlock) : Prop :=
  exists tag,
    slice content (startIndex b) (endIndex b) = fenced tag (code b)
    /\ endIndex b = startIndex b + length (fenced tag (code b))
    /\ endIndex b <= length content
    /\ Forall (fun c => is_word c = true) tag
    /\ language b = or_else tag TEXT
    /\ find_fence (code b) = None.

(** The blocks follow each other without overlap, from [from] on. *)
Fixpoint in_order (from : nat) (blocks : list CodeBlock) : Prop :=
  match blocks with
  | [] => True
  | b :: rest =>
      from <= startIndex b /\ startIndex b < endIndex b
      /\ in_order (endIndex b) rest
  end.

End CodeBlocks.

(** ** The stream relay ([handleChatRequest] in
       [backend/handlers/chat.ts])

    The handler consumes the generator with [for await] and may stop
    early: when the body of the loop throws, the loop closes the generator
    with [return()], which runs its [finally] block.  A computation of
    [Gen] is a generator body run against its consumer: the consumer says
    of every value, by its position and content, whether it asks for the
    next one or closes the generator. *)

Module Relay.
Import Runtime.

(** How a generator body completes: normally, by throwing, or because the
    consumer closed the generator while it was suspended at a [yield]. *)
Inductive Completion (A : Type) : Type :=
| Normal (a : A)
| Throws (e : Js.Thrown)
| Returns.
Arguments Normal {A} _.
Arguments Throws {A} _.
Arguments Returns {A}.

Definition Consumer : Type := nat -> StreamResponse -> bool.

Record GenResult (A : Type) : Type :=
  { completion : Completion A;
    delivered : list StreamResponse;
    after : World }.
Arguments completion {A} _.
Arguments delivered {A} _.
Arguments after {A} _.

(** The third argument counts the values delivered so far. *)
Definition Gen (A : Type) : Type :=
  Env -> Consumer -> nat -> World -> GenResult A.

Definition gen_ret {A} (a : A) : Gen A :=
  fun _ _ _ w => {| completion := Normal a; delivered := []; after := w |}.

Definition gen_bind {A B} (k : A -> Gen B) (m : Gen A) : Gen B :=
  fun env consumer n w =>
    let r := m env consumer n w in
    match completion r with
    | Normal a =>
        let r' := k a env consumer (n + length (delivered r)) (after r) in
        {| completion := completion r';
           delivered := delivered r ++ delivered r';
           after := after r' |}
    | Throws e =>
        {| completion := Throws e; delivered := delivered r;
           after := after r |}
    | Returns =>
        {| completion := Returns; delivered := delivered r;
           after := after r |}
    end.

#[export] Instance Gen_ret : MRet Gen := @gen_ret.
#[export] Instance Gen_bind : MBind Gen := @gen_bind.

(** A computation of the generator that yields nothing. *)
Definition lift {A} (m : Async A) : Gen A :=
  fun env _ _ w =>
    let r := m env w in
    {| completion :=
         match outcome r with
         | inl e => Throws e
         | inr a => Normal a
         end;
       delivered := yielded r;
       after := world r |}.

(** [yield v]: the value is delivered, the generator is suspended, and the
    consumer resumes it with [next()] or closes it with [return()]. *)
Definition gen_yield (v : StreamResponse) : Gen unit :=
  fun env consumer n w =>
    {| completion := if consumer n v then Normal tt else Returns;
       delivered := [v];
       after := world (suspend env w) |}.

(** [try { body } catch (error) { handler }]: a [return()] is not
    caught. *)
Definition gen_try_catch {A} (body : Gen A) (handler : Js.Thrown -> Gen A)
  : Gen A :=
  fun env consumer n w =>
    let r := body env consumer n w in
    match completion r with
    | Throws e =>
        let r' :=
          handler e env consumer (n + length (delivered r)) (after r) in
        {| completion := completion r';
           delivered := delivered r ++ delivered r';
           after := after r' |}
    | _ => r
    end.

(** [try { body } finally { cleanup }]: the cleanup runs however the body
    completes, also on [return()]. *)
Definition gen_try_finally {A} (body : Gen A) (cleanup : Gen unit)
  : Gen A :=
  fun env consumer n w =>
    let r := body env consumer n w in
    let r' :=
      cleanup env consumer (n + length (delivered r)) (after r) in
    {| completion :=
         match completion r' with
         | Normal _ => completion r
         | Throws e => Throws e
         | Returns => Returns
         end;
       delivered := delivered r ++ delivered r';
       after := after r' |}.

(** The body of a [for await] over the SDK's sequence: when it completes
    abruptly the loop closes the SDK's iterator, awaiting its
    [return()]. *)
Definition closing {A} (body : Gen A) : Gen A :=
  fun env consumer n w =>
    let r := body env consumer n w in
    match completion r with
    | Normal _ => r
    | _ =>
        {| completion := completion r;
           delivered := delivered r;
           after := world (suspend env (after r)) |}
    end.

Fixpoint gen_for_each (items : list Js.Json) (body : Js.Json -> Gen unit)
  : Gen unit :=
  match items with
  | [] => mret tt
  | x :: rest =>
      lift suspend ;; closing (body x) ;; gen_for_each rest body
  end.

Definition gen_for_await (run : EngineRun) (body : Js.Json -> Gen unit)
  : Gen unit :=
  gen_for_each (emitted run) body ;;
  lift suspend ;;
  match failure run with
  | Some e => lift (throw e)
  | None => mret tt
  end.

(** The [try] block of [executeClaudeCommand]. *)
Definition try_block
  (message requestId cliPath : string)
  (sessionId : option string)
  (allowedTools : option (list string))
  (workingDirectory permissionMode : option string) : Gen unit :=
  let processedMessage :=
    if Js.startsWith message "/" then Js.substring_from 1 message
    else message in
  abortController ← lift new_AbortController;
  lift (map_set requestId abortController) ;;
  let safeAllowedTools := Tools.getAllowedTools allowedTools in
  messageWithRules ←
    lift (Chat.prepareMessageWithRules processedMessage sessionId);
  run ← lift (query
    {| prompt := messageWithRules;
       options := Chat.query_options abortController cliPath sessionId
                    safeAllowedTools workingDirectory permissionMode |});
  gen_for_await run (fun sdkMessage => gen_yield (ClaudeJson sdkMessage)) ;;
  gen_yield Done.

(** The [catch (error)] block. *)
Definition catch_block (error : Js.Thrown) : Gen unit :=
  isError ← lift (evaluate (Js.instanceof_Error error));
  errorMessage ←
    lift (if isError : bool then evaluate (Js.message_of error)
          else mret (Js.Str ""));
  errorName ←
    lift (if isError : bool then evaluate (Js.name_of error)
          else mret (Js.Str ""));
  isAbort ←
    lift (if Js.strict_equal errorName "AbortError" then mret true
          else evaluate (Js.includes_of errorMessage "aborted by user"));
  if isAbort : bool then gen_yield Aborted
  else
    text ←
      lift (if Js.truthy_value errorMessage then mret errorMessage
            else evaluate (Js.String_ error) ≫= fun s => mret (Js.Str s));
    gen_yield (Error text).

(** [executeClaudeCommand], run against its consumer. *)
Definition executeClaudeCommand
  (message requestId cliPath : string)
  (sessionId : option string)
  (allowedTools : option (list string))
  (workingDirectory permissionMode : option string) : Gen unit :=
  gen_try_finally
    (gen_try_catch
       (try_block message requestId cliPath sessionId allowedTools
          workingDirectory permissionMode)
       catch_block)
    (lift (Chat.finally_block requestId)).

(** [ChatRequest] *)
Record ChatRequest : Type :=
  { message : string;
    requestId : string;
    sessionId : option string;
    allowedTools : option (list string);
    workingDirectory : option string;
    permissionMode : option string }.

(** What is outside the handler on the side of the response:
    [JSON.stringify], which may throw, and the client, which cancels the
    stream once [cancels_after] chunks are enqueued, if ever; from then on
    [controller.enqueue] and [controller.close] throw [controller_error]. *)
Record Client : Type :=
  { JSON_stringify : StreamResponse -> Js.Thrown + string;
    cancels_after : option nat;
    controller_error : Js.Thrown }.

Definition usable (client : Client) (enqueued : nat) : bool :=
  match cancels_after client with
  | Some k => enqueued <? k
  | None => true
  end.

Definition LF : string := String "010" "".

(** The body of the [for await] loop of [start], for the [n]-th chunk: the
    data it enqueues, unless it throws. *)
Definition loop_body (client : Client) (n : nat) (chunk : StreamResponse)
  : Js.Thrown + string :=
  match JSON_stringify client chunk with
  | inl e => inl e
  | inr json =>
      if usable client n then inr (json +:+ LF)
      else inl (controller_error client)
  end.

(** The consumer that the loop is: it asks for the next value when its
    body did not throw. *)
Definition accepts (client : Client) : Consumer :=
  fun n chunk =>
    match loop_body client n chunk with
    | inr _ => true
    | inl _ => false
    end.

(** The loop over the values the generator delivered. *)
Fixpoint pump (client : Client) (n : nat) (values : list StreamResponse)
  (chunks : list string) : option Js.Thrown * list string :=
  match values with
  | [] => (None, chunks)
  | v :: rest =>
      match loop_body client n v with
      | inr data => pump client (S n) rest (chunks ++ [data])
      | inl e => (Some e, chunks)
      end
  end.

(** How the stream of the response ends: [controller.close()] was
    reached, or [start] threw. *)
Inductive StreamEnd : Type :=
| Closed
| Errored.

Record Stream : Type :=
  { chunks : list string; ending : StreamEnd }.

(** [controller.close()] after the chunks [enqueued]. *)
Definition close (client : Client) (enqueued : list string)
  : Js.Thrown + Stream :=
  if usable client (length enqueued)
  then inr {| chunks := enqueued; ending := Closed |}
  else inl (controller_error client).

(** The [catch (error)] block of [start]; when it throws itself, [start]
    has thrown and the stream ends in error. *)
Definition on_error (client : Client) (enqueued : list string)
  (error : Js.Thrown) : Stream :=
  match Js.message_or_String error with
  | inr text =>
      let errorResponse := Error text in
      match loop_body client (length enqueued) errorResponse with
      | inr data =>
          match close client (enqueued ++ [data]) with
          | inr stream => stream
          | inl _ => {| chunks := enqueued ++ [data]; ending := Errored |}
          end
      | inl _ => {| chunks := enqueued; ending := Errored |}
      end
  | inl _ => {| chunks := enqueued; ending := Errored |}
  end.

(** [handleChatRequest]: the stream of the response, and the world when
    [start] has settled. *)
Definition handleChatRequest (client : Client) (chatRequest : ChatRequest)
  (cliPath : string) (env : Env) (w : World) : Stream * World :=
  let r :=
    executeClaudeCommand (message chatRequest) (requestId chatRequest)
      cliPath (sessionId chatRequest) (allowedTools chatRequest)
      (workingDirectory chatRequest) (permissionMode chatRequest)
      env (accepts client) 0 w in
  let '(thrown, enqueued) := pump client 0 (delivered r) [] in
  let thrown :=
    match thrown, completion r with
    | Some e, _ => Some e
    | None, Throws e => Some e
    | None, _ => None
    end in
  (match thrown with
   | Some e => on_error client enqueued e
   | None =>
       match close client enqueued with
       | inr stream => stream
       | inl e => on_error client enqueued e
       end
   end,
   after r).

(** *** Vocabulary *)

(** The position of the first value of [values] the consumer does not
    accept, when they are delivered from position [n] on. *)
Fixpoint first_refused (consumer : Consumer) (n : nat)
  (values : list StreamResponse) : option nat :=
  match values with
  | [] => None
  | v :: rest =>
      if consumer n v then S <$> first_refused consumer (S n) rest
      else Some 0
  end.

(** The events that reach the stream of a client that stays, for a turn
    that ran to its end with result [r]: the events of the generator and,
    when the generator threw, the [error] event that the [catch] block of
    [start] makes of what was thrown, if it can. *)
Definition relayed (r : Result unit) : list StreamResponse :=
  yielded r
  ++ match outcome r with
     | inr _ => []
     | inl e =>
         match Js.message_or_String e with
         | inr text => [Error text]
         | inl _ => []
         end
     end.

(** Whether [start] gets as far as [controller.close()] after such a
    turn. *)
Definition reaches_close (r : Result unit) : bool :=
  match outcome r with
  | inr _ => true
  | inl e =>
      match Js.message_or_String e with
      | inr _ => true
      | inl _ => false
      end
  end.

(** The line of a value, for a serialiser that does not fail on it. *)
Definition line (client : Client) (v : StreamResponse) : string :=
  match JSON_stringify client v with
  | inr json => json +:+ LF
  | inl _ => ""
  end.

End Relay.

(** ** Hiding the injected rules in the transcript
       ([isRulesMessage] and [renderMessage] of the component
       [ChatMessages])

    Strings are lists of UTF-16 code units, as in [CodeBlocks]. *)

Module RulesFilter.

(** The literals of [isRulesMessage]. *)
Definition DASHES : list N := [45; 45; 45; 45]%N.
Definition USER_MESSAGE : list N :=
  [85; 115; 101; 114; 32; 109; 101; 115; 115; 97; 103; 101; 58]%N.
Definition USER_MESSAGE_ZH : list N :=
  [29992; 25143; 28040; 24687; 58]%N.
Definition HASH : list N := [35]%N.
Definition SAFETY_RULES_ZH : list N := [23433; 20840; 35268; 21017]%N.
Definition SAFETY_PRINCIPLES_ZH : list N :=
  [23433; 20840; 21407; 21017]%N.
Definition USER : list N := [117; 115; 101; 114]%N.

(** White space and line terminators, which [trim] removes. *)
Definition is_space (c : N) : bool :=
  bool_decide
    (c ∈ [9; 10; 11; 12; 13; 32; 160; 5760; 8232; 8233; 8239; 8287;
          12288; 65279]%N)
  || ((8192 <=? c) && (c <=? 8202))%N.

Fixpoint trim_start (s : list N) : list N :=
  match s with
  | c :: rest => if is_space c then trim_start rest else s
  | [] => []
  end.

(** [s.trim()] *)
Definition trim (s : list N) : list N :=
  reverse (trim_start (reverse (trim_start s))).

(** [s.includes(needle)] *)
Fixpoint includes (s needle : list N) : bool :=
  CodeBlocks.starts_with needle s
  || match s with
     | _ :: rest => includes rest needle
     | [] => false
     end.

(** The members of a chat message that the filter reads. *)
Record ChatMessage : Type :=
  { role : list N; content : list N }.

(** [isRulesMessage(message)]; [isChatMessage] is the answer of the type
    guard of that name, which is declared elsewhere. *)
Definition isRulesMessage (isChatMessage : bool) (message : ChatMessage)
  : bool :=
  if negb isChatMessage then false
  else if negb (bool_decide (role message = USER)) then false
  else
    let content := trim (content message) in
    let hasSeparator := includes content DASHES in
    let hasUserMessageMarker :=
      includes content USER_MESSAGE || includes content USER_MESSAGE_ZH in
    let startsWithHeading :=
      CodeBlocks.starts_with HASH content
      || includes content SAFETY_RULES_ZH
      || includes content SAFETY_PRINCIPLES_ZH in
    let isLongWithSeparator :=
      (500 <? length content) && hasSeparator && hasUserMessageMarker in
    hasSeparator && hasUserMessageMarker
    && (startsWithHeading || isLongWithSeparator).

(** Whether [renderMessage] renders the message, rather than [null]. *)
Definition rendered (isChatMessage : bool) (message : ChatMessage) : bool :=
  isChatMessage && negb (isRulesMessage isChatMessage message).

(** The code units of an ASCII text. *)
Definition units (s : string) : list N :=
  N_of_ascii <$> String.list_ascii_of_string s.

(** The content of the prompt that [prepareMessageWithRules] builds from
    the rules and the message. *)
Definition injected_content (rules message : list N) : list N :=
  rules ++ units Chat.SEPARATOR ++ message.

End RulesFilter.

(** ** Concrete clients and contents *)

Module RelayFixtures.
Import Runtime Relay.

(** A serialiser that writes the tag of the event only. *)
Definition tag_of (v : StreamResponse) : string :=
  match v with
  | ClaudeJson _ => "claude_json"
  | Done => "done"
  | Aborted => "aborted"
  | Error _ => "error"
  end.

Definition patient_client : Client :=
  {| JSON_stringify := fun v => inr (tag_of v);
     cancels_after := None;
     controller_error := Js.ThrownError "TypeError" "Invalid state" |}.

Definition leaving_client (k : nat) : Client :=
  {| JSON_stringify := fun v => inr (tag_of v);
     cancels_after := Some k;
     controller_error := Js.ThrownError "TypeError" "Invalid state" |}.

(** A run of three messages that ends normally. *)
Definition three_messages : EngineRun :=
  {| emitted := [Js.JNull; Js.JBool true; Js.JNumber 3];
     failure := None |}.

(** A consumer that closes the generator at its second value. *)
Definition takes_one : Consumer := fun n _ => n <? 1.


(** A run that raises [failure] at once. *)
Definition failing_run (failure : Js.Thrown) : EngineRun :=
  {| emitted := []; failure := Some failure |}.

(** The code units of [a], line feed, [b], line feed. *)
Definition two_lines : list N := [97; 10; 98; 10]%N.

(** A short rules document and a short message, in code units. *)
Definition short_rules : list N := RulesFilter.units "# Rules".
Definition short_message : list N := RulesFilter.units "hello".

End RelayFixtures.

(** * Verification *)

(** ** Strings *)

Section StringFacts.

Lemma append_cons (c : Ascii.ascii) (s t : string) :
  String c s +:+ t = String c (s +:+ t).
Proof. reflexivity. Qed.

Lemma append_assoc (s t u : string) : (s +:+ t) +:+ u = s +:+ t +:+ u.
Proof.
  induction s as [|c s IH]; [done |]. by rewrite !append_cons, IH.
Qed.

Lemma startsWith_spec (s p : string) :
  Js.startsWith s p = true <-> exists rest, s = p +:+ rest.
Proof.
  unfold Js.startsWith. revert s.
  induction p as [|c p IH]; intros [|d s]; simpl.
  - split; [intros _; by exists "" | done].
  - split; [intros _; by exists (String d s) | done].
  - split; [done | intros [rest Hrest]; by rewrite append_cons in Hrest].
  - destruct (Ascii.ascii_dec c d) as [->|Hne].
    + rewrite IH. split; intros [rest Hrest]; exists rest.
      * by rewrite append_cons, Hrest.
      * rewrite append_cons in Hrest. congruence.
    + split; [done |].
      intros [rest Hrest]. rewrite append_cons in Hrest. congruence.
Qed.

Lemma truthy_Some (s : string) : Js.truthy (Some s) = true <-> s <> "".
Proof.
  unfold Js.truthy. rewrite negb_true_iff. apply String.eqb_neq.
Qed.

Lemma truthy_false (v : option string) :
  Js.truthy v = false <-> v = None \/ v = Some "".
Proof.
  destruct v as [s|]; simpl.
  - rewrite negb_false_iff, String.eqb_eq.
    split; [intros ->; by right | intros [?|?]; congruence].
  - split; [by left | done].
Qed.

Lemma strip_slash (rest : string) :
  Js.startsWith ("/" +:+ rest) "/" = true /\
  Js.substring_from 1 ("/" +:+ rest) = rest.
Proof. split; [apply startsWith_spec; by exists rest | done]. Qed.

End StringFacts.

(** ** The tool-permission filter *)

Section ToolFilter.
Import Tools.

Lemma includes_spec (tools : list string) (tool : string) :
  includes tools tool = true <-> tool ∈ tools.
Proof.
  unfold includes. rewrite existsb_exists, list_elem_of_In. split.
  - intros (x & Hin & Heq). apply String.eqb_eq in Heq. by subst.
  - intros Hin. exists tool. split; [done | apply String.eqb_refl].
Qed.

Lemma is_blocked_spec (tool : string) :
  is_blocked tool = true <-> blocklisted tool.
Proof.
  unfold is_blocked, blocklisted. rewrite existsb_exists.
  split; intros (b & Hb & H); exists b.
  - split; [by apply list_elem_of_In |].
    apply orb_true_iff in H as [H|H].
    + left. by apply String.eqb_eq.
    + right. apply startsWith_spec in H as [rest ->].
      exists rest. apply append_assoc.
  - split; [by apply list_elem_of_In |].
    apply orb_true_iff. destruct H as [->|[rest ->]].
    + left. apply String.eqb_refl.
    + right. apply startsWith_spec. exists rest.
      symmetry. apply append_assoc.
Qed.

Lemma not_blocked_spec (tool : string) :
  is_blocked tool = false <-> ~ blocklisted tool.
Proof.
  rewrite <- is_blocked_spec. destruct (is_blocked tool); split; congruence.
Qed.

Lemma baseline_not_blocked (tool : string) :
  tool ∈ READ_ONLY_TOOLS -> is_blocked tool = false.
Proof.
  unfold READ_ONLY_TOOLS. rewrite !elem_of_cons, elem_of_nil.
  intros H. repeat destruct H as [->|H]; try done.
Qed.

(** Filtering out [x] after filtering out a list, and the reverse. *)
Lemma filter_notin_snoc (acc l : list string) (x : string) :
  filter (fun t => t ∉ acc ++ [x]) l
  = filter (fun t => t ∉ acc) (filter (fun y => y <> x) l).
Proof.
  rewrite list_filter_filter. apply list_filter_iff. intros t.
  rewrite elem_of_app, list_elem_of_singleton. tauto.
Qed.

Lemma filter_notin_absorb (acc l : list string) (x : string) :
  x ∈ acc ->
  filter (fun t => t ∉ acc) (filter (fun y => y <> x) l)
  = filter (fun t => t ∉ acc) l.
Proof.
  intros Hx. rewrite list_filter_filter. apply list_filter_iff. intros t.
  split; [tauto | intros Ht; split; [done | congruence]].
Qed.

(** The loop of [getAllowedTools], started from any array [acc]. *)
Lemma loop_spec (approved acc : list string) :
  fold_left loop_body approved acc
  = acc ++ filter (fun t => t ∉ acc)
             (dedup (filter (fun t => is_blocked t = false) approved)).
Proof.
  revert acc. induction approved as [|x l IH]; intros acc; simpl.
  - by rewrite filter_nil, app_nil_r.
  - unfold loop_body at 2. destruct (is_blocked x) eqn:Hb.
    + rewrite filter_cons_False by congruence. apply IH.
    + rewrite filter_cons_True by done. simpl.
      destruct (includes acc x) eqn:Hi; simpl.
      * apply includes_spec in Hi.
        rewrite filter_cons_False by tauto.
        rewrite filter_notin_absorb by done. apply IH.
      * assert (x ∉ acc) as Hx.
        { rewrite <- includes_spec. congruence. }
        rewrite filter_cons_True by done.
        rewrite IH, filter_notin_snoc, <- app_assoc. done.
Qed.

Lemma filter_notin_nil (l : list string) :
  filter (fun t => t ∉ @nil string) l = l.
Proof.
  induction l as [|x l IH]; [done |].
  rewrite filter_cons_True by apply not_elem_of_nil. by rewrite IH.
Qed.

Lemma dedup_app (a b : list string) :
  dedup (a ++ b) = dedup a ++ filter (fun t => t ∉ a) (dedup b).
Proof.
  induction a as [|x a IH]; simpl.
  - by rewrite filter_notin_nil.
  - rewrite IH, filter_app. do 2 f_equal.
    rewrite list_filter_filter. apply list_filter_iff. intros t.
    rewrite not_elem_of_cons. tauto.
Qed.

Lemma elem_of_dedup (l : list string) (t : string) : t ∈ dedup l <-> t ∈ l.
Proof.
  induction l as [|x l IH]; simpl; [done |].
  rewrite !elem_of_cons, list_elem_of_filter, IH.
  destruct (decide (t = x)); tauto.
Qed.

Lemma NoDup_dedup (l : list string) : NoDup (dedup l).
Proof.
  induction l as [|x l IH]; simpl; constructor.
  - rewrite list_elem_of_filter. tauto.
  - by apply NoDup_filter.
Qed.

Lemma dedup_sublist (l : list string) : dedup l `sublist_of` l.
Proof.
  induction l as [|x l IH]; simpl; [done |].
  apply sublist_skip. etrans; [apply sublist_filter | done].
Qed.

(** The entries appended to the baseline. *)
Lemma getAllowedTools_split (userApproved : option (list string)) :
  getAllowedTools userApproved
  = READ_ONLY_TOOLS
    ++ filter (fun t => t ∉ READ_ONLY_TOOLS)
         (dedup (filter (fun t => is_blocked t = false)
                        (default [] userApproved))).
Proof.
  destruct userApproved as [l|]; simpl.
  - apply loop_spec.
  - by rewrite filter_nil.
Qed.

Lemma elem_of_getAllowedTools (userApproved : option (list string))
  (t : string) :
  t ∈ getAllowedTools userApproved
  <-> t ∈ READ_ONLY_TOOLS
      \/ (t ∈ default [] userApproved /\ ~ blocklisted t).
Proof.
  rewrite getAllowedTools_split, elem_of_app, list_elem_of_filter,
    elem_of_dedup, list_elem_of_filter, not_blocked_spec.
  destruct (decide (t ∈ READ_ONLY_TOOLS)); tauto.
Qed.

(** C1.  For every optional user-approved list, [getAllowedTools] returns
    the fixed baseline [Read, Grep, Glob, LSP, Task], in that order,
    followed by the user-approved entries in their original order, without
    the entries that equal a blocklist entry or start with one followed by
    an opening parenthesis, and without the entries already present.  The
    result is duplicate-free, contains the baseline and no blocklisted
    entry, and for [Bash, WebSearch] it is the baseline plus
    [WebSearch]. *)
Theorem getAllowedTools_correct (userApproved : option (list string)) :
  READ_ONLY_TOOLS = ["Read"; "Grep"; "Glob"; "LSP"; "Task"]
  /\ BLOCKED_WRITE_TOOLS = ["Write"; "Edit"; "Delete"; "Move"; "Bash"]
  /\ (forall t, is_blocked t = true <-> blocklisted t)
  /\ getAllowedTools userApproved = allowed_tool_set userApproved
  /\ getAllowedTools userApproved
     = READ_ONLY_TOOLS ++ kept_entries userApproved
  /\ kept_entries userApproved `sublist_of` default [] userApproved
  /\ NoDup (getAllowedTools userApproved)
  /\ (forall t, t ∈ kept_entries userApproved
                <-> t ∈ default [] userApproved
                    /\ ~ blocklisted t /\ t ∉ READ_ONLY_TOOLS)
  /\ READ_ONLY_TOOLS ⊆ getAllowedTools userApproved
  /\ (forall t, t ∈ getAllowedTools userApproved -> ~ blocklisted t)
  /\ getAllowedTools (Some ["Bash"; "WebSearch"])
     = ["Read"; "Grep"; "Glob"; "LSP"; "Task"; "WebSearch"].
Proof.
  assert (getAllowedTools userApproved = allowed_tool_set userApproved)
    as Hset.
  { rewrite getAllowedTools_split. unfold allowed_tool_set.
    by rewrite dedup_app. }
  split; [reflexivity |]. split; [reflexivity |].
  split; [apply is_blocked_spec |].
  repeat split.
  - exact Hset.
  - apply getAllowedTools_split.
  - unfold kept_entries.
    etrans; [apply sublist_filter |].
    etrans; [apply dedup_sublist | apply sublist_filter].
  - rewrite Hset. apply NoDup_dedup.
  - unfold kept_entries in H.
    rewrite list_elem_of_filter, elem_of_dedup, list_elem_of_filter in H.
    tauto.
  - unfold kept_entries in H.
    rewrite list_elem_of_filter, elem_of_dedup, list_elem_of_filter,
      not_blocked_spec in H.
    tauto.
  - unfold kept_entries in H.
    rewrite list_elem_of_filter in H. tauto.
  - intros (Hin & Hnb & Hbase). unfold kept_entries.
    rewrite list_elem_of_filter, elem_of_dedup, list_elem_of_filter,
      not_blocked_spec.
    tauto.
  - intros t Ht. apply elem_of_getAllowedTools. by left.
  - intros t Ht. apply elem_of_getAllowedTools in Ht as [Ht|[_ Ht]].
    + apply not_blocked_spec. by apply baseline_not_blocked.
    + exact Ht.
Qed.

(** C6, counterexample.  ["WriteFile"] has the blocklisted name [Write]
    as a prefix, and yet it is in the result. *)
Lemma blocked_prefix_not_excluded :
  has_blocked_prefix "WriteFile"
  /\ "WriteFile" ∈ ["WriteFile"]
  /\ "WriteFile" ∈ getAllowedTools (Some ["WriteFile"]).
Proof.
  split; [| split].
  - exists "Write", "File". split; [| reflexivity].
    unfold BLOCKED_WRITE_TOOLS. apply list_elem_of_here.
  - apply list_elem_of_here.
  - apply elem_of_getAllowedTools. right. split.
    + apply list_elem_of_here.
    + by apply not_blocked_spec.
Qed.

(** C6, amended.  Blocklist matching is exact or on [Name(]: an entry of
    the user-approved list is excluded from the result of
    [getAllowedTools] exactly when it equals a blocklisted name or starts
    with a blocklisted name followed by an opening parenthesis. *)
Theorem blocklist_match_exact_or_paren
  (approved : list string) (t : string) (Hin : t ∈ approved) :
  t ∉ getAllowedTools (Some approved) <-> blocklisted t.
Proof.
  rewrite elem_of_getAllowedTools. simpl. split.
  - intros Hnot. apply is_blocked_spec.
    destruct (is_blocked t) eqn:Hb; [done |].
    exfalso. apply Hnot. right. split; [done |].
    by apply not_blocked_spec.
  - intros Hb [Hbase|[_ Hnb]]; [| done].
    apply baseline_not_blocked in Hbase.
    apply is_blocked_spec in Hb. congruence.
Qed.

Lemma blocklist_match_exact_or_paren_witness :
  "Write(notes.md)" ∈ ["Bash"; "Write(notes.md)"]
  /\ ("Write(notes.md)"
        ∉ getAllowedTools (Some ["Bash"; "Write(notes.md)"])
      <-> blocklisted "Write(notes.md)").
Proof.
  assert ("Write(notes.md)" ∈ ["Bash"; "Write(notes.md)"]) as Hin.
  { apply list_elem_of_further, list_elem_of_here. }
  split; [exact Hin |].
  exact (blocklist_match_exact_or_paren
           ["Bash"; "Write(notes.md)"] "Write(notes.md)" Hin).
Defined.

End ToolFilter.

(** ** Asynchronous computations *)

Section AsyncFacts.
Import Runtime.

Lemma after_suspensions_add (others : nat -> Heap -> Heap) (m n : nat)
  (w : World) :
  after_suspensions others n (after_suspensions others m w)
  = after_suspensions others (m + n) w.
Proof. revert w. induction m as [|m IH]; intros w; simpl; [done | apply IH]. Qed.

Lemma after_suspensions_log (others : nat -> Heap -> Heap) (n : nat)
  (w : World) :
  engine_log (after_suspensions others n w) = engine_log w
  /\ created (after_suspensions others n w) = created w.
Proof.
  revert w. induction n as [|n IH]; intros w; simpl; [done |].
  by destruct (IH {| heap := others (suspensions w) (heap w);
                     created := created w;
                     suspensions := S (suspensions w);
                     engine_log := engine_log w |}) as [-> ->].
Qed.

Lemma yield_run (v : StreamResponse) (env : Env) (w : World) :
  yield v env w
  = {| outcome := inr tt; yielded := [v];
       world := after_suspensions (others env) 1 w |}.
Proof. reflexivity. Qed.

(** Sequencing after a computation that returns, or that throws. *)
Lemma bind_run {A B} (m : Async A) (k : A -> Async B) (env : Env)
  (w w' : World) (a : A) (ys : list StreamResponse) :
  m env w = {| outcome := inr a; yielded := ys; world := w' |} ->
  (m ≫= k) env w
  = {| outcome := outcome (k a env w');
       yielded := ys ++ yielded (k a env w');
       world := world (k a env w') |}.
Proof. intros H. unfold mbind, Async_bind, bind. by rewrite H. Qed.

Lemma bind_throw {A B} (m : Async A) (k : A -> Async B) (env : Env)
  (w w' : World) (e : Js.Thrown) (ys : list StreamResponse) :
  m env w = {| outcome := inl e; yielded := ys; world := w' |} ->
  (m ≫= k) env w = {| outcome := inl e; yielded := ys; world := w' |}.
Proof. intros H. unfold mbind, Async_bind, bind. by rewrite H. Qed.

Lemma new_AbortController_run (env : Env) (w : World) :
  new_AbortController env w
  = {| outcome := inr {| controller_id := created w |};
       yielded := [];
       world := {| heap := heap w; created := S (created w);
                   suspensions := suspensions w;
                   engine_log := engine_log w |} |}.
Proof. reflexivity. Qed.

Lemma map_set_run (key : string) (c : AbortController) (env : Env)
  (w : World) :
  map_set key c env w
  = {| outcome := inr tt;
       yielded := [];
       world :=
         {| heap :=
              {| requestAbortControllers :=
                   <[key := c]> (requestAbortControllers (heap w));
                 cachedRules := cachedRules (heap w);
                 rulesPath := rulesPath (heap w) |};
            created := created w;
            suspensions := suspensions w;
            engine_log := engine_log w |} |}.
Proof. reflexivity. Qed.

Lemma query_run (call : QueryCall) (env : Env) (w : World) :
  query call env w
  = {| outcome := inr (engine env call);
       yielded := [];
       world := {| heap := heap w; created := created w;
                   suspensions := suspensions w;
                   engine_log := engine_log w ++ [call] |} |}.
Proof. reflexivity. Qed.

(** The loop of a [for await] whose body yields every item. *)
Lemma for_each_yield (env : Env) (items : list Js.Json) (w : World) :
  for_each items (fun m => yield (ClaudeJson m)) env w
  = {| outcome := inr tt;
       yielded := map ClaudeJson items;
       world := after_suspensions (others env) (length items * 2) w |}.
Proof.
  revert w. induction items as [|x items IH]; intros w; [done |].
  cbn [for_each]. unfold mbind, Async_bind, bind at 1.
  cbn [suspend outcome world yielded].
  unfold bind at 1. rewrite yield_run. cbn [outcome world yielded].
  simpl. by rewrite IH.
Qed.

Lemma for_await_yield (env : Env) (run : EngineRun) (w : World) :
  for_await run (fun m => yield (ClaudeJson m)) env w
  = {| outcome := match failure run with
                  | Some e => inl e
                  | None => inr tt
                  end;
       yielded := map ClaudeJson (emitted run);
       world := after_suspensions (others env)
                  (length (emitted run) * 2 + 1) w |}.
Proof.
  unfold for_await, mbind, Async_bind, bind at 1.
  rewrite for_each_yield, <- after_suspensions_add.
  destruct (failure run); simpl; by rewrite app_nil_r.
Qed.

End AsyncFacts.

(** ** One turn of [executeClaudeCommand] *)

Section Turn.
Import Runtime Chat.

Lemma processed_message (message : string) :
  (if Js.startsWith message "/" then Js.substring_from 1 message
   else message) = strip_slash message.
Proof.
  destruct message as [|c s]; [done |].
  destruct c as [[] [] [] [] [] [] [] []]; destruct s; reflexivity.
Qed.

Lemma strip_slash_slash (rest : string) : strip_slash ("/" +:+ rest) = rest.
Proof. reflexivity. Qed.

Lemma strip_slash_other (message : string) :
  Js.startsWith message "/" = false -> strip_slash message = message.
Proof. intros H. by rewrite <- processed_message, H. Qed.

Lemma prepare_run (message : string) (sessionId : option string)
  (env : Env) (w : World) :
  prepareMessageWithRules message sessionId env w
  = {| outcome := inr (injected w sessionId message);
       yielded := [];
       world := w |}.
Proof.
  unfold prepareMessageWithRules, injected.
  destruct (Js.truthy sessionId); reflexivity.
Qed.

(** The [catch] block yields the event it makes of the failure and is
    suspended once, or throws without having yielded. *)
Lemma catch_block_run (e : Js.Thrown) (env : Env) (w : World) :
  catch_block e env w
  = match caught e with
    | inr final =>
        {| outcome := inr tt; yielded := [final];
           world := after_suspensions (others env) 1 w |}
    | inl e' => {| outcome := inl e'; yielded := []; world := w |}
    end.
Proof.
  destruct e as [[e1|[]] [e2|message] [e3|name] [e4|s]];
    unfold catch_block, caught;
    cbv [mbind Async_bind bind evaluate mret Async_ret returns throw
         outcome yielded world Js.instanceof_Error Js.message_of
         Js.name_of Js.String_];
    try reflexivity;
    (destruct (Js.strict_equal name "AbortError"); [reflexivity |]);
    (destruct (Js.includes_of message "aborted by user") as [e5|[]];
     [reflexivity | reflexivity |]);
    destruct (Js.truthy_value message); reflexivity.
Qed.




Lemma finally_block_run (requestId : string) (env : Env) (w : World) :
  finally_block requestId env w
  = {| outcome := inr tt; yielded := [];
       world := released w requestId |}.
Proof.
  destruct w as [[m cached path] n k log].
  cbv [finally_block released mbind Async_bind bind map_has map_delete
       get_heap put_heap mret Async_ret returns outcome world yielded
       heap requestAbortControllers cachedRules rulesPath created
       suspensions engine_log app].
  case_bool_decide as Hhas; [reflexivity |].
  rewrite delete_id; [reflexivity |].
  destruct (m !! requestId) eqn:Hm; [| done].
  exfalso. apply Hhas. by exists a.
Qed.

(** The [try] block up to the end of the engine's sequence. *)
Lemma try_block_run (env : Env) (w : World)
  (message requestId cliPath : string) (sessionId : option string)
  (allowedTools : option (list string))
  (workingDirectory permissionMode : option string) :
  let call :=
    {| prompt := injected w sessionId (strip_slash message);
       options := query_options {| controller_id := created w |} cliPath
                    sessionId (Tools.getAllowedTools allowedTools)
                    workingDirectory permissionMode |} in
  let run := engine env call in
  try_block message requestId cliPath sessionId allowedTools
    workingDirectory permissionMode env w
  = match failure run with
    | Some e =>
        {| outcome := inl e;
           yielded := map ClaudeJson (emitted run);
           world := after_suspensions (others env)
                      (length (emitted run) * 2 + 1)
                      (started w requestId call) |}
    | None =>
        {| outcome := inr tt;
           yielded := map ClaudeJson (emitted run) ++ [Done];
           world := after_suspensions (others env)
                      (length (emitted run) * 2 + 2)
                      (started w requestId call) |}
    end.
Proof.
  intros call run. unfold try_block. rewrite processed_message.
  erewrite bind_run; [| apply new_AbortController_run].
  erewrite bind_run; [| apply map_set_run].
  erewrite bind_run; [| apply prepare_run].
  erewrite bind_run; [| apply query_run].
  cbn [app heap created suspensions engine_log requestAbortControllers
       cachedRules rulesPath].
  change (injected _ sessionId (strip_slash message))
    with (injected w sessionId (strip_slash message)).
  fold call. fold run. fold (started w requestId call).
  destruct (failure run) as [e|] eqn:Hf.
  - erewrite bind_throw; [| rewrite for_await_yield, Hf; reflexivity].
    reflexivity.
  - erewrite bind_run; [| rewrite for_await_yield, Hf; reflexivity].
    rewrite yield_run, after_suspensions_add.
    cbn [outcome yielded world app].
    by replace (length (emitted run) * 2 + 1 + 1)
      with (length (emitted run) * 2 + 2) by lia.
Qed.

(** The whole turn, in closed form. *)
Lemma executeClaudeCommand_run (env : Env) (w : World)
  (message requestId cliPath : string) (sessionId : option string)
  (allowedTools : option (list string))
  (workingDirectory permissionMode : option string) :
  let call :=
    {| prompt := injected w sessionId (strip_slash message);
       options := query_options {| controller_id := created w |} cliPath
                    sessionId (Tools.getAllowedTools allowedTools)
                    workingDirectory permissionMode |} in
  let run := engine env call in
  executeClaudeCommand message requestId cliPath sessionId allowedTools
    workingDirectory permissionMode env w
  = {| outcome := match terminal_event (failure run) with
                  | inr _ => inr tt
                  | inl e => inl e
                  end;
       yielded := events_of run;
       world := released
                  (after_suspensions (others env) (steps_of run)
                     (started w requestId call))
                  requestId |}.
Proof.
  intros call run.
  unfold executeClaudeCommand, try_finally. rewrite finally_block_run.
  cbn [outcome yielded world]. rewrite app_nil_r.
  unfold try_catch. rewrite try_block_run. fold call. fold run.
  unfold events_of, steps_of.
  destruct (failure run) as [e|]; cbn [outcome yielded world terminal_event].
  - rewrite catch_block_run.
    destruct (caught e) as [e'|final]; cbn [outcome yielded world].
    + by rewrite !app_nil_r.
    + rewrite after_suspensions_add.
      by replace (length (emitted run) * 2 + 1 + 1)
        with (length (emitted run) * 2 + 2) by lia.
  - reflexivity.
Qed.

Lemma engine_saw_started (others : nat -> Heap -> Heap) (n : nat)
  (w : World) (requestId : string) (call : QueryCall) :
  engine_log
    (released (after_suspensions others n (started w requestId call))
       requestId)
  = engine_log w ++ [call].
Proof.
  unfold released. cbn [engine_log].
  by destruct (after_suspensions_log others n (started w requestId call))
    as [-> _].
Qed.

Lemma when_truthy_lookup (v : option string) (key : string) :
  when_truthy v key !! key = VString <$> provided v.
Proof.
  destruct v as [[|c s]|]; cbn; [done | | done].
  apply lookup_singleton_eq.
Qed.

Lemma when_truthy_lookup_ne (v : option string) (key k : string) :
  key <> k -> when_truthy v key !! k = None.
Proof.
  intros Hne. destruct v as [[|c s]|]; cbn; [done | | done].
  by apply lookup_singleton_ne.
Qed.

Lemma provided_is_Some (v : option string) :
  is_Some (provided v) <-> Js.truthy v = true.
Proof.
  destruct v as [[|c s]|]; cbn; split;
    first [done | by intros [? ?] | by eexists].
Qed.

(** The optional keys of the [options] object. *)
Lemma query_options_optional (c : AbortController) (cliPath : string)
  (sessionId : option string) (tools : list string)
  (workingDirectory permissionMode : option string) :
  query_options c cliPath sessionId tools workingDirectory permissionMode
    !! "resume" = VString <$> provided sessionId
  /\ query_options c cliPath sessionId tools workingDirectory
       permissionMode !! "cwd" = VString <$> provided workingDirectory
  /\ query_options c cliPath sessionId tools workingDirectory
       permissionMode !! "permissionMode"
     = VString <$> provided permissionMode.
Proof.
  unfold query_options, object_literal. cbn [fold_left].
  repeat split.
  - rewrite !lookup_union, !(when_truthy_lookup_ne _ _ "resume") by done.
    rewrite lookup_insert_ne by done.
    rewrite lookup_union, when_truthy_lookup.
    rewrite !lookup_insert_ne, lookup_empty by done.
    by destruct (provided sessionId).
  - rewrite lookup_union, (when_truthy_lookup_ne _ _ "cwd") by done.
    rewrite lookup_union, when_truthy_lookup.
    rewrite lookup_insert_ne by done.
    rewrite lookup_union, (when_truthy_lookup_ne _ _ "cwd") by done.
    rewrite !lookup_insert_ne, lookup_empty by done.
    by destruct (provided workingDirectory).
  - rewrite lookup_union, when_truthy_lookup.
    rewrite lookup_union,
      (when_truthy_lookup_ne _ _ "permissionMode") by done.
    rewrite lookup_insert_ne by done.
    rewrite lookup_union,
      (when_truthy_lookup_ne _ _ "permissionMode") by done.
    rewrite !lookup_insert_ne, lookup_empty by done.
    by destruct (provided permissionMode).
Qed.

End Turn.

(** ** Properties of a turn *)

Section TurnProperties.
Import Runtime Chat.

Context (env : Env) (w : World).
Context (requestId cliPath : string).
Context (allowedTools : option (list string)).
Context (workingDirectory permissionMode : option string).

Local Abbreviation turn message sessionId :=
  (executeClaudeCommand message requestId cliPath sessionId allowedTools
     workingDirectory permissionMode env w).

Local Abbreviation call_of message sessionId :=
  {| prompt := injected w sessionId (strip_slash message);
     options := query_options {| controller_id := created w |} cliPath
                  sessionId (Tools.getAllowedTools allowedTools)
                  workingDirectory permissionMode |}.

Lemma turn_log (message : string) (sessionId : option string) :
  engine_log (world (turn message sessionId))
  = engine_log w ++ [call_of message sessionId].
Proof. rewrite executeClaudeCommand_run. apply engine_saw_started. Qed.

Lemma turn_prompt (message : string) (sessionId : option string) :
  prompt <$> engine_saw (world (turn message sessionId))
  = Some (injected w sessionId (strip_slash message)).
Proof. unfold engine_saw. by rewrite turn_log, last_snoc. Qed.



(** C5.  When the sequence of a turn has ended, on the [done], the
    [aborted] and the [error] path alike and whatever the other tasks did
    to the map meanwhile, the map of abort controllers has no entry for
    the turn's [requestId]: releasing it is the last step of the turn. *)
Theorem registry_entry_released
  (message : string) (sessionId : option string) :
  requestAbortControllers (heap (world (turn message sessionId)))
    !! requestId = None
  /\ exists before,
       world (turn message sessionId) = released before requestId.
Proof.
  rewrite executeClaudeCommand_run. cbn [world]. split.
  - unfold released. cbn [heap requestAbortControllers].
    apply lookup_delete_eq.
  - by eexists.
Qed.

(** C4, amended.  Without a [sessionId], and with an empty one, the
    prompt the engine receives is the cached Rules Document, the
    separator, and the slash-stripped message; with a non-empty
    [sessionId] it is the slash-stripped message alone. *)
Theorem prompt_of_turn (message : string) :
  prompt <$> engine_saw (world (turn message None))
  = Some (rules_document w +:+ "

---
User message: " +:+ strip_slash message)
  /\ prompt <$> engine_saw (world (turn message (Some "")))
     = Some (with_rules (rules_document w) (strip_slash message))
  /\ (forall c s,
        prompt <$> engine_saw (world (turn message (Some (String c s))))
        = Some (strip_slash message))
  /\ prompt <$> engine_saw (world (turn "hello" None))
     = Some (rules_document w +:+ "

---
User message: hello").
Proof.
  repeat split; intros; by rewrite turn_prompt.
Qed.

(** C7.  A message that begins with a slash reaches the Rule Injector,
    and through it the engine, without that first character, with or
    without a [sessionId]; a message that does not begin with a slash is
    passed through unchanged.  [/status] without a [sessionId] reaches
    the engine as [status] with the rules prepended. *)
Theorem leading_slash_stripped (sessionId : option string) :
  (forall rest,
     prompt <$> engine_saw (world (turn ("/" +:+ rest) sessionId))
     = Some (injected w sessionId rest))
  /\ (forall message,
        Js.startsWith message "/" = false ->
        prompt <$> engine_saw (world (turn message sessionId))
        = Some (injected w sessionId message))
  /\ prompt <$> engine_saw (world (turn "/status" None))
     = Some (with_rules (rules_document w) "status")
  /\ (forall c s,
        prompt <$> engine_saw
                     (world (turn "/status" (Some (String c s))))
        = Some "status").
Proof.
  repeat split; intros; rewrite turn_prompt; try done.
  by rewrite strip_slash_other.
Qed.

(** C8.  In the options of every call to the engine, each of the keys
    [resume], [cwd] and [permissionMode] is present exactly when the
    corresponding request field is truthy, and then holds the value of
    that field; otherwise the key is missing from the object. *)
Theorem optional_parameters_iff_provided
  (message : string) (sessionId : option string) :
  exists call,
    engine_log (world (turn message sessionId)) = engine_log w ++ [call]
    /\ options call !! "resume" = VString <$> provided sessionId
    /\ options call !! "cwd" = VString <$> provided workingDirectory
    /\ options call !! "permissionMode"
       = VString <$> provided permissionMode
    /\ (is_Some (options call !! "resume")
        <-> Js.truthy sessionId = true)
    /\ (is_Some (options call !! "cwd")
        <-> Js.truthy workingDirectory = true)
    /\ (is_Some (options call !! "permissionMode")
        <-> Js.truthy permissionMode = true).
Proof.
  exists (call_of message sessionId). cbn [options].
  destruct (query_options_optional {| controller_id := created w |}
              cliPath sessionId (Tools.getAllowedTools allowedTools)
              workingDirectory permissionMode) as (Hr & Hc & Hp).
  rewrite Hr, Hc, Hp, !fmap_is_Some, !provided_is_Some.
  by split; [apply turn_log |].
Qed.

(** C10.  A request whose [sessionId] is the empty string is treated
    exactly like a request without one: the two turns coincide.  Rules
    are prepended exactly when no resume token is passed, and a resume
    token is passed only for a non-empty [sessionId]. *)
Theorem empty_sessionId_is_absent (message : string) :
  turn message (Some "") = turn message None
  /\ forall sessionId,
       exists call,
         engine_log (world (turn message sessionId))
         = engine_log w ++ [call]
         /\ ((Js.truthy sessionId = false
              /\ prompt call
                 = with_rules (rules_document w) (strip_slash message)
              /\ options call !! "resume" = None)
             \/ (exists s,
                   sessionId = Some s /\ s <> ""
                   /\ prompt call = strip_slash message
                   /\ options call !! "resume" = Some (VString s))).
Proof.
  split; [by rewrite !executeClaudeCommand_run |].
  intros sessionId. exists (call_of message sessionId).
  split; [apply turn_log |]. cbn [prompt options].
  destruct (query_options_optional {| controller_id := created w |}
              cliPath sessionId (Tools.getAllowedTools allowedTools)
              workingDirectory permissionMode) as (-> & _).
  destruct sessionId as [[|c s]|]; [by left | | by left].
  right. by exists (String c s).
Qed.

End TurnProperties.

(** ** The rules loader *)

Section RulesLoader.
Import Runtime Loader.

(** [loadRules] in closed form. *)
Lemma loadRules_run (env : Env) (w : World) :
  loadRules env w
  = match rulesPath (heap w) with
    | Some path =>
        if Js.truthy (Some path) then
          if existsSync env path then
            match readFile env path with
            | inr content =>
                {| outcome := inr content; yielded := [];
                   world := cached (after_suspensions (others env) 1 w)
                              content |}
            | inl _ =>
                {| outcome := inr DEFAULT_RULES; yielded := [];
                   world := cached (after_suspensions (others env) 1 w)
                              DEFAULT_RULES |}
            end
          else
            {| outcome := inr DEFAULT_RULES; yielded := [];
               world := cached w DEFAULT_RULES |}
        else {| outcome := inr DEFAULT_RULES; yielded := []; world := w |}
    | None => {| outcome := inr DEFAULT_RULES; yielded := []; world := w |}
    end.
Proof.
  unfold loadRules. erewrite bind_run; [| reflexivity].
  destruct (rulesPath (heap w)) as [path|]; [| reflexivity].
  destruct (Js.truthy (Some path)); [| reflexivity].
  cbn [negb]. erewrite bind_run; [| reflexivity].
  destruct (existsSync env path); [| reflexivity].
  cbn [negb]. unfold try_catch, await.
  destruct (readFile env path) as [e|content]; reflexivity.
Qed.

Lemma getCachedRules_run (env : Env) (w : World) :
  getCachedRules env w
  = {| outcome := inr (default DEFAULT_RULES (cachedRules (heap w)));
       yielded := [];
       world := w |}.
Proof. reflexivity. Qed.

(** C9.  [loadRules] always returns a rules document and never throws.
    With an uninitialised path it returns the built-in default; with a
    missing file, or a file that cannot be read, it returns the default
    and caches it.  [getCachedRules] always returns a string: the cached
    content, or the default when nothing is cached.  A chat turn does
    not depend on the file system, so that no failure of the rules file
    can reach it. *)
Theorem rules_load_failure_contained (env : Env) (w : World) :
  (exists rules, outcome (loadRules env w) = inr rules)
  /\ yielded (loadRules env w) = []
  /\ (Js.truthy (rulesPath (heap w)) = false ->
      loadRules env w
      = {| outcome := inr DEFAULT_RULES; yielded := []; world := w |})
  /\ (forall path,
        rulesPath (heap w) = Some path -> path <> "" ->
        existsSync env path = false ->
        outcome (loadRules env w) = inr DEFAULT_RULES
        /\ cachedRules (heap (world (loadRules env w)))
           = Some DEFAULT_RULES)
  /\ (forall path e,
        rulesPath (heap w) = Some path -> path <> "" ->
        existsSync env path = true ->
        readFile env path = inl e ->
        outcome (loadRules env w) = inr DEFAULT_RULES
        /\ cachedRules (heap (world (loadRules env w)))
           = Some DEFAULT_RULES)
  /\ getCachedRules env w
     = {| outcome := inr (default DEFAULT_RULES (cachedRules (heap w)));
          yielded := [];
          world := w |}
  /\ (forall content,
        cachedRules (heap w) = Some content ->
        outcome (getCachedRules env w) = inr content)
  /\ (cachedRules (heap w) = None ->
      outcome (getCachedRules env w) = inr DEFAULT_RULES)
  /\ (forall message requestId cliPath sessionId allowedTools
             workingDirectory permissionMode fs_exists fs_read,
        Chat.executeClaudeCommand message requestId cliPath sessionId
          allowedTools workingDirectory permissionMode
          {| engine := engine env; others := others env;
             existsSync := fs_exists; readFile := fs_read |} w
        = Chat.executeClaudeCommand message requestId cliPath sessionId
            allowedTools workingDirectory permissionMode env w).
Proof.
  rewrite loadRules_run, getCachedRules_run.
  split; [| split; [| split; [| split; [| split; [| split;
    [| split; [| split]]]]]]].
  - destruct (rulesPath (heap w)) as [path|]; [| by eexists].
    destruct (Js.truthy (Some path)); [| by eexists].
    destruct (existsSync env path); [| by eexists].
    destruct (readFile env path); by eexists.
  - destruct (rulesPath (heap w)) as [path|]; [| done].
    destruct (Js.truthy (Some path)); [| done].
    destruct (existsSync env path); [| done].
    by destruct (readFile env path).
  - intros Hfalsy. destruct (rulesPath (heap w)) as [path|]; [| done].
    by rewrite Hfalsy.
  - intros path -> Hpath Hmissing.
    apply truthy_Some in Hpath. by rewrite Hpath, Hmissing.
  - intros path e -> Hpath Hexists Hread.
    apply truthy_Some in Hpath. by rewrite Hpath, Hexists, Hread.
  - reflexivity.
  - by intros content ->.
  - by intros ->.
  - intros. by rewrite !executeClaudeCommand_run.
Qed.

End RulesLoader.

(** ** Concrete turns *)

Section Scenarios.
Import Runtime Chat Fixtures.

(** C4, counterexample.  A request with [sessionId = ""] has a
    [sessionId], and its prompt is not the message: the rules are
    prepended. *)
Lemma empty_sessionId_gets_rules :
  prompt <$> engine_saw
               (world
                  (executeClaudeCommand "hello" "r1" "/usr/bin/claude"
                     (Some "") None None None
                     (quiet_env {| emitted := []; failure := None |})
                     fresh_world))
  = Some (with_rules Loader.DEFAULT_RULES "hello")
  /\ prompt <$> engine_saw
                  (world
                     (executeClaudeCommand "hello" "r1" "/usr/bin/claude"
                        (Some "") None None None
                        (quiet_env {| emitted := []; failure := None |})
                        fresh_world))
     <> Some "hello".
Proof.
  rewrite turn_prompt. split; [reflexivity |].
  intros H. vm_compute in H. discriminate H.
Qed.

Lemma leading_slash_stripped_witness :
  Js.startsWith "hello" "/" = false
  /\ prompt <$> engine_saw
                  (world
                     (executeClaudeCommand "hello" "r1" "/usr/bin/claude"
                        (Some "s-1") None None None
                        (quiet_env {| emitted := []; failure := None |})
                        fresh_world))
     = Some "hello".
Proof.
  split; [reflexivity |].
  exact (proj1 (proj2
    (leading_slash_stripped
       (quiet_env {| emitted := []; failure := None |})
       fresh_world "r1" "/usr/bin/claude" None None None (Some "s-1")))
    "hello" eq_refl).
Defined.

Lemma rules_load_failure_contained_witness :
  rulesPath (heap (world_with_path "/srv/app/RULES.md"))
  = Some "/srv/app/RULES.md"
  /\ existsSync unreadable_env "/srv/app/RULES.md" = true
  /\ readFile unreadable_env "/srv/app/RULES.md"
     = inl (Js.ThrownError "Error" "EACCES")
  /\ outcome (Loader.loadRules unreadable_env
                (world_with_path "/srv/app/RULES.md"))
     = inr Loader.DEFAULT_RULES
  /\ cachedRules
       (heap (world (Loader.loadRules unreadable_env
                       (world_with_path "/srv/app/RULES.md"))))
     = Some Loader.DEFAULT_RULES.
Proof.
  split; [reflexivity |]. split; [reflexivity |]. split; [reflexivity |].
  refine (proj1 (proj2 (proj2 (proj2 (proj2
    (rules_load_failure_contained unreadable_env
       (world_with_path "/srv/app/RULES.md"))))))
    "/srv/app/RULES.md" (Js.ThrownError "Error" "EACCES")
    eq_refl _ eq_refl eq_refl).
  discriminate.
Defined.

End Scenarios.

(** ** More on the tool-permission filter *)

Section ToolFilterMore.
Import Tools.

Lemma filter_all (P : string -> Prop) `{forall x, Decision (P x)}
  (l : list string) :
  (forall x, x ∈ l -> P x) -> filter P l = l.
Proof.
  induction l as [|x l IH]; intros Hall; [done |].
  rewrite filter_cons_True by (apply Hall; apply list_elem_of_here).
  rewrite IH; [done |].
  intros y Hy. apply Hall. by apply list_elem_of_further.
Qed.

Lemma filter_none (P : string -> Prop) `{forall x, Decision (P x)}
  (l : list string) :
  (forall x, x ∈ l -> ~ P x) -> filter P l = [].
Proof.
  induction l as [|x l IH]; intros Hnone; [done |].
  rewrite filter_cons_False by (apply Hnone; apply list_elem_of_here).
  apply IH. intros y Hy. apply Hnone. by apply list_elem_of_further.
Qed.

Lemma dedup_NoDup (l : list string) : NoDup l -> dedup l = l.
Proof.
  induction 1 as [|x l Hx Hl IH]; [done |].
  simpl. rewrite IH. f_equal. apply filter_all. intros y Hy ->. done.
Qed.

Lemma baseline_NoDup : NoDup READ_ONLY_TOOLS.
Proof. apply (bool_decide_unpack _). by vm_compute. Qed.

(** X1.  Filtering is idempotent: feeding the result of [getAllowedTools]
    back as the user-approved list gives the same result. *)
Theorem getAllowedTools_idempotent (userApproved : option (list string)) :
  getAllowedTools (Some (getAllowedTools userApproved))
  = getAllowedTools userApproved.
Proof.
  set (result := getAllowedTools userApproved).
  assert (NoDup result) as Hnd.
  { unfold result. rewrite getAllowedTools_split.
    rewrite <- (dedup_NoDup READ_ONLY_TOOLS) at 1 by apply baseline_NoDup.
    rewrite <- dedup_app. apply NoDup_dedup. }
  assert (forall t, t ∈ result -> is_blocked t = false) as Hnb.
  { intros t Ht. apply elem_of_getAllowedTools in Ht as [Ht|[_ Ht]].
    - by apply baseline_not_blocked.
    - by apply not_blocked_spec. }
  rewrite getAllowedTools_split. cbn [default].
  rewrite (filter_all _ result) by done.
  rewrite dedup_NoDup by done.
  subst result. rewrite (getAllowedTools_split userApproved), filter_app.
  rewrite (filter_none _ READ_ONLY_TOOLS) by (intros x Hx Hn; done).
  rewrite app_nil_l, filter_all; [done |].
  intros x Hx. apply list_elem_of_filter in Hx. tauto.
Qed.

(** X2.  Without a list, and with an empty one, the result is the
    baseline; in general it has the five baseline tools and at most one
    more entry per user-approved entry. *)
Theorem getAllowedTools_size (userApproved : option (list string)) :
  getAllowedTools None = READ_ONLY_TOOLS
  /\ getAllowedTools (Some []) = READ_ONLY_TOOLS
  /\ 5 <= length (getAllowedTools userApproved)
  /\ length (getAllowedTools userApproved)
     <= 5 + length (default [] userApproved).
Proof.
  split; [reflexivity |]. split; [reflexivity |].
  rewrite getAllowedTools_split, length_app.
  change (length READ_ONLY_TOOLS) with 5.
  assert (length
            (filter (fun t => t ∉ READ_ONLY_TOOLS)
               (dedup (filter (fun t => is_blocked t = false)
                         (default [] userApproved))))
          <= length (default [] userApproved)) as Hlen.
  { apply sublist_length.
    etrans; [apply sublist_filter |].
    etrans; [apply dedup_sublist | apply sublist_filter]. }
  lia.
Qed.

End ToolFilterMore.

(** ** More on a turn *)

Section TurnMore.
Import Runtime Chat.

Lemma when_truthy_lookup_any (v : option string) (key k : string) :
  when_truthy v key !! k
  = if decide (key = k) then VString <$> provided v else None.
Proof.
  case_decide as Hk.
  - subst k. apply when_truthy_lookup.
  - by apply when_truthy_lookup_ne.
Qed.

(** Every member of the [options] object. *)
Lemma query_options_lookup (c : AbortController) (cliPath : string)
  (sessionId : option string) (tools : list string)
  (workingDirectory permissionMode : option string) (k : string) :
  query_options c cliPath sessionId tools workingDirectory permissionMode
    !! k
  = if decide (k = "abortController") then Some (VController c)
    else if decide (k = "executable") then Some (VString "node")
    else if decide (k = "executableArgs") then Some (VStrings [])
    else if decide (k = "pathToClaudeCodeExecutable")
         then Some (VString cliPath)
    else if decide (k = "resume") then VString <$> provided sessionId
    else if decide (k = "allowedTools") then Some (VStrings tools)
    else if decide (k = "cwd") then VString <$> provided workingDirectory
    else if decide (k = "permissionMode")
         then VString <$> provided permissionMode
    else None.
Proof.
  unfold query_options, object_literal. cbn [fold_left].
  repeat first [ rewrite lookup_union
               | rewrite when_truthy_lookup_any
               | rewrite lookup_insert ].
  rewrite lookup_empty.
  repeat case_decide; subst; try done;
    repeat match goal with
    | |- context [provided ?v] => destruct (provided v)
    end; done.
Qed.

Lemma after_suspensions_quiet (others : nat -> Heap -> Heap) (n : nat)
  (w : World) :
  (forall i h, others i h = h) ->
  heap (after_suspensions others n w) = heap w.
Proof.
  intros Hquiet. revert w. induction n as [|n IH]; intros w; [done |].
  simpl. rewrite IH. cbn [heap]. apply Hquiet.
Qed.

Context (env : Env) (w : World).
Context (requestId cliPath : string).
Context (allowedTools : option (list string)).
Context (workingDirectory permissionMode : option string).

Local Abbreviation turn message sessionId :=
  (executeClaudeCommand message requestId cliPath sessionId allowedTools
     workingDirectory permissionMode env w).

Local Abbreviation call_of message sessionId :=
  {| prompt := injected w sessionId (strip_slash message);
     options := query_options {| controller_id := created w |} cliPath
                  sessionId (Tools.getAllowedTools allowedTools)
                  workingDirectory permissionMode |}.

(** X3.  The engine is called exactly once per turn, and the tool list it
    is given is always the filtered one: it holds the baseline and no
    blocklisted tool, whatever the request listed.  Beside the tool list
    the options hold the controller, the executable [node] without
    arguments, the CLI path, and the optional keys; no other key. *)
Theorem engine_options_of_turn
  (message : string) (sessionId : option string) :
  exists call,
    engine_log (world (turn message sessionId)) = engine_log w ++ [call]
    /\ options call !! "allowedTools"
       = Some (VStrings (Tools.getAllowedTools allowedTools))
    /\ Tools.READ_ONLY_TOOLS ⊆ Tools.getAllowedTools allowedTools
    /\ (forall t, t ∈ Tools.getAllowedTools allowedTools ->
                  ~ Tools.blocklisted t)
    /\ options call !! "executable" = Some (VString "node")
    /\ options call !! "executableArgs" = Some (VStrings [])
    /\ options call !! "pathToClaudeCodeExecutable"
       = Some (VString cliPath)
    /\ (forall k,
          k ∉ ["abortController"; "executable"; "executableArgs";
               "pathToClaudeCodeExecutable"; "resume"; "allowedTools";
               "cwd"; "permissionMode"] ->
          options call !! k = None).
Proof.
  exists (call_of message sessionId). cbn [options].
  split; [apply turn_log |].
  split; [by rewrite query_options_lookup |].
  split; [intros t Ht; apply elem_of_getAllowedTools; by left |].
  split.
  { intros t Ht. apply elem_of_getAllowedTools in Ht as [Ht|[_ Ht]].
    - apply not_blocked_spec. by apply baseline_not_blocked.
    - exact Ht. }
  split; [by rewrite query_options_lookup |].
  split; [by rewrite query_options_lookup |].
  split; [by rewrite query_options_lookup |].
  intros k Hk. rewrite query_options_lookup.
  rewrite !not_elem_of_cons in Hk.
  repeat case_decide; try done; tauto.
Qed.

(** X4.  The controller registered under [requestId] while the engine
    runs is the one handed to the engine, and it is a new one: an entry
    that [requestId] already had is replaced. *)
Theorem registered_controller_reaches_engine
  (message : string) (sessionId : option string) :
  exists call c n,
    world (turn message sessionId)
    = released (after_suspensions (others env) n
                  (started w requestId call)) requestId
    /\ engine_log (started w requestId call) = engine_log w ++ [call]
    /\ requestAbortControllers (heap (started w requestId call))
         !! requestId = Some c
    /\ options call !! "abortController" = Some (VController c)
    /\ controller_id c = created w.
Proof.
  exists (call_of message sessionId), {| controller_id := created w |}.
  eexists. rewrite executeClaudeCommand_run. cbn [world options].
  split; [reflexivity |]. split; [reflexivity |].
  split; [apply lookup_insert_eq |].
  split; [by rewrite query_options_lookup | reflexivity].
Qed.

(** X5.  When no other task changes the heap, a turn leaves every entry
    of the map other than its own as it was, and leaves the rules cache
    and the rules path alone. *)
Theorem turn_touches_only_own_entry
  (message : string) (sessionId : option string) (k : string)
  (Hquiet : forall i h, others env i h = h)
  (Hother : k <> requestId) :
  requestAbortControllers
    (heap (world
             (executeClaudeCommand message requestId cliPath sessionId
                allowedTools workingDirectory permissionMode env w))) !! k
  = requestAbortControllers (heap w) !! k
  /\ cachedRules (heap (world (turn message sessionId)))
     = cachedRules (heap w)
  /\ rulesPath (heap (world (turn message sessionId)))
     = rulesPath (heap w).
Proof.
  rewrite executeClaudeCommand_run. unfold released.
  cbn [world heap requestAbortControllers cachedRules rulesPath].
  rewrite after_suspensions_quiet by done.
  unfold started. cbn [heap requestAbortControllers cachedRules rulesPath].
  by rewrite lookup_delete_ne, lookup_insert_ne.
Qed.

Lemma caught_other (e : Js.Thrown) :
  Js.instanceof_Error e = inr false ->
  caught e
  = match Js.String_ e with
    | inl e' => inl e'
    | inr text => inr (Error (Js.Str text))
    end.
Proof. unfold caught. by intros ->. Qed.

(** X6.  A thrown value that is not an [Error] is never taken for a
    cancellation, whatever its name and its text.  When it has a string
    conversion, the turn ends with an [error] event that carries it; when
    its string conversion throws, the turn yields the engine's messages
    and no terminal event, and throws what the conversion threw. *)
Theorem non_error_value_is_a_failure
  (message : string) (sessionId : option string)
  (call : QueryCall) (e : Js.Thrown)
  (Hcall : engine_saw (world (turn message sessionId)) = Some call)
  (Hfail : failure (engine env call) = Some e)
  (Hother : Js.instanceof_Error e = inr false) :
  (Aborted ∉ yielded (turn message sessionId))
  /\ (forall text,
        Js.String_ e = inr text ->
        last (yielded (turn message sessionId))
        = Some (Error (Js.Str text))
        /\ outcome (turn message sessionId) = inr tt)
  /\ (forall e',
        Js.String_ e = inl e' ->
        outcome (turn message sessionId) = inl e'
        /\ yielded (turn message sessionId)
           = ClaudeJson <$> emitted (engine env call)).
Proof.
  unfold engine_saw in Hcall.
  rewrite turn_log, last_snoc in Hcall. injection Hcall as <-.
  rewrite executeClaudeCommand_run. unfold events_of.
  rewrite Hfail. cbn [outcome yielded terminal_event].
  rewrite (caught_other e Hother).
  split; [| split].
  - rewrite elem_of_app, list_elem_of_fmap.
    intros [(x & Hx & _)|Hx]; [discriminate |].
    destruct (Js.String_ e);
      [by apply elem_of_nil in Hx
      | by apply list_elem_of_singleton in Hx].
  - intros text ->. split; [apply last_snoc | reflexivity].
  - intros e' ->. split; [reflexivity | apply app_nil_r].
Qed.

End TurnMore.

Section TurnMoreWitnesses.
Import Runtime Chat Fixtures.

Lemma turn_touches_only_own_entry_witness :
  (forall i h, others (quiet_env cancelled_run) i h = h)
  /\ "r1" <> "r2"
  /\ requestAbortControllers (heap busy_world) !! "r1"
     = Some {| controller_id := 0 |}
  /\ requestAbortControllers
       (heap (world
                (executeClaudeCommand "hello" "r2" "/usr/bin/claude"
                   None None None None (quiet_env cancelled_run)
                   busy_world))) !! "r1"
     = requestAbortControllers (heap busy_world) !! "r1".
Proof.
  split; [reflexivity |]. split; [discriminate |]. split; [reflexivity |].
  exact (proj1
    (turn_touches_only_own_entry (quiet_env cancelled_run) busy_world
       "r2" "/usr/bin/claude" None None None "hello" None "r1"
       (fun _ _ => eq_refl) ltac:(discriminate))).
Defined.

Lemma non_error_value_is_a_failure_witness :
  failure
    (engine
       (quiet_env
          {| emitted := [];
             failure := Some (Js.ThrownOther "aborted by user") |})
       {| prompt := "hello";
          options := query_options {| controller_id := 0 |}
                       "/usr/bin/claude" (Some "s-1")
                       (Tools.getAllowedTools None) None None |})
  = Some (Js.ThrownOther "aborted by user")
  /\ Js.instanceof_Error (Js.ThrownOther "aborted by user") = inr false
  /\ Js.String_ (Js.ThrownOther "aborted by user") = inr "aborted by user"
  /\ last (yielded
             (executeClaudeCommand "hello" "r1" "/usr/bin/claude"
                (Some "s-1") None None None
                (quiet_env
                   {| emitted := [];
                      failure := Some (Js.ThrownOther "aborted by user") |})
                fresh_world))
     = Some (Error (Js.Str "aborted by user")).
Proof.
  split; [reflexivity |]. split; [reflexivity |]. split; [reflexivity |].
  exact (proj1
    (proj1 (proj2
      (non_error_value_is_a_failure
         (quiet_env
            {| emitted := [];
               failure := Some (Js.ThrownOther "aborted by user") |})
         fresh_world "r1" "/usr/bin/claude" None None None
         "hello" (Some "s-1")
         {| prompt := "hello";
            options := query_options {| controller_id := 0 |}
                         "/usr/bin/claude" (Some "s-1")
                         (Tools.getAllowedTools None) None None |}
         (Js.ThrownOther "aborted by user") eq_refl eq_refl eq_refl))
      "aborted by user" eq_refl)).
Defined.

End TurnMoreWitnesses.

(** ** More on the rules loader, and the rules API *)

Section RulesMore.
Import Runtime Loader.

(** X7.  After a load that read the file, the cache holds the content of
    the file, also when that content is empty, and the next new
    conversation gets this content in front of its message. *)
Theorem loaded_rules_reach_next_turn (env : Env) (w : World)
  (path content : string)
  (Hpath : rulesPath (heap w) = Some path)
  (Hinit : path <> "")
  (Hexists : existsSync env path = true)
  (Hread : readFile env path = inr content) :
  outcome (loadRules env w) = inr content
  /\ cachedRules (heap (world (loadRules env w))) = Some content
  /\ outcome (getCachedRules env (world (loadRules env w))) = inr content
  /\ forall message requestId cliPath allowedTools workingDirectory
            permissionMode,
       prompt <$> Chat.engine_saw
                    (world
                       (Chat.executeClaudeCommand message requestId cliPath
                          None allowedTools workingDirectory permissionMode
                          env (world (loadRules env w))))
       = Some (content +:+ Chat.SEPARATOR +:+ Chat.strip_slash message).
Proof.
  apply truthy_Some in Hinit.
  rewrite loadRules_run, Hpath, Hinit, Hexists, Hread.
  cbn [outcome world]. split; [done |]. split; [done |]. split; [done |].
  intros. by rewrite turn_prompt.
Qed.

(** X8.  Once the path is initialised, reading the cache right after a
    load gives what the load returned, whether the load read the file or
    fell back to the default. *)
Theorem load_then_read (env : Env) (w : World)
  (Hinit : Js.truthy (rulesPath (heap w)) = true) :
  outcome (getCachedRules env (world (loadRules env w)))
  = outcome (loadRules env w).
Proof.
  rewrite loadRules_run.
  destruct (rulesPath (heap w)) as [path|]; [| done].
  rewrite Hinit.
  destruct (existsSync env path); [| done].
  by destruct (readFile env path).
Qed.

(** X9.  A load never consults the cache: what it returns and what it
    leaves in the cache depend on the path and the file system only, so
    loading again with the same path and files gives the same rules. *)
Theorem load_ignores_cache (env : Env) (w1 w2 : World)
  (Hsame : rulesPath (heap w1) = rulesPath (heap w2)) :
  outcome (loadRules env w1) = outcome (loadRules env w2)
  /\ (Js.truthy (rulesPath (heap w1)) = true ->
      cachedRules (heap (world (loadRules env w1)))
      = cachedRules (heap (world (loadRules env w2))))
  /\ (rulesPath (heap (world (loadRules env w1))) = rulesPath (heap w1) ->
      outcome (loadRules env (world (loadRules env w1)))
      = outcome (loadRules env w1)).
Proof.
  assert (forall wa wb, rulesPath (heap wa) = rulesPath (heap wb) ->
            outcome (loadRules env wa) = outcome (loadRules env wb)) as Hout.
  { intros wa wb Hab. rewrite !loadRules_run, Hab.
    destruct (rulesPath (heap wb)) as [path|]; [| done].
    destruct (Js.truthy (Some path)); [| done].
    destruct (existsSync env path); [| done].
    by destruct (readFile env path). }
  split; [by apply Hout |]. split; [| apply Hout].
  intros Hinit. rewrite !loadRules_run, <- Hsame.
  destruct (rulesPath (heap w1)) as [path|]; [| done].
  rewrite Hinit.
  destruct (existsSync env path); [| done].
  by destruct (readFile env path).
Qed.

Import RulesApi.

(** The length of the default rules, in UTF-16 code units. *)
Lemma length_DEFAULT_RULES : RulesApi.length DEFAULT_RULES = 239.
Proof. by vm_compute. Qed.

Lemma loadRules_returns (env : Env) (w : World) :
  exists rules w',
    loadRules env w
    = {| outcome := inr rules; yielded := []; world := w' |}.
Proof.
  rewrite loadRules_run.
  destruct (rulesPath (heap w)) as [path|]; [| by eexists _, _].
  destruct (Js.truthy (Some path)); [| by eexists _, _].
  destruct (existsSync env path); [| by eexists _, _].
  destruct (readFile env path); by eexists _, _.
Qed.

Lemma handleReloadRulesRequest_run (env : Env) (w : World) (rules : string)
  (w' : World) :
  loadRules env w = {| outcome := inr rules; yielded := []; world := w' |} ->
  handleReloadRulesRequest env w
  = {| outcome :=
         inr {| status := 200;
                body :=
                  [ ("success", FBool true);
                    ("message", FString "Rules reloaded successfully");
                    ("rules", FString rules);
                    ("length", FNumber (RulesApi.length rules)) ] |};
       yielded := [];
       world := w' |}.
Proof.
  intros Hload. unfold handleReloadRulesRequest, reloadRules, try_catch.
  erewrite bind_run by exact Hload. reflexivity.
Qed.


(** X10.  Both rules endpoints always answer 200 with [success: true]:
    the GET handler with the cached rules or the default, leaving the
    world as it is, the reload handler with what the load returned; the
    [length] member is the length of the [rules] member.  The 500 answer
    is never given. *)
Theorem rules_endpoints_always_succeed (env : Env) (w : World) :
  handleGetRulesRequest env w
  = {| outcome :=
         inr {| status := 200;
                body :=
                  [ ("success", FBool true);
                    ("rules",
                     FString (default DEFAULT_RULES (cachedRules (heap w))));
                    ("length",
                     FNumber
                       (RulesApi.length
                          (default DEFAULT_RULES
                             (cachedRules (heap w))))) ] |};
       yielded := [];
       world := w |}
  /\ exists rules,
       outcome (loadRules env w) = inr rules
       /\ outcome (handleReloadRulesRequest env w)
          = inr {| status := 200;
                   body :=
                     [ ("success", FBool true);
                       ("message", FString "Rules reloaded successfully");
                       ("rules", FString rules);
                       ("length", FNumber (RulesApi.length rules)) ] |}
       /\ world (handleReloadRulesRequest env w) = world (loadRules env w).
Proof.
  split; [reflexivity |].
  destruct (loadRules_returns env w) as (rules & w' & Hload).
  exists rules.
  by rewrite (handleReloadRulesRequest_run env w rules w' Hload), Hload.
Qed.


End RulesMore.

Section RulesMoreWitnesses.
Import Runtime Loader RulesApi Fixtures.

Lemma loaded_rules_reach_next_turn_witness :
  rulesPath (heap (world_with_path "/srv/app/RULES.md"))
  = Some "/srv/app/RULES.md"
  /\ existsSync (readable_env "") "/srv/app/RULES.md" = true
  /\ readFile (readable_env "") "/srv/app/RULES.md" = inr ""
  /\ outcome
       (getCachedRules (readable_env "")
          (world (loadRules (readable_env "")
                    (world_with_path "/srv/app/RULES.md"))))
     = inr "".
Proof.
  split; [reflexivity |]. split; [reflexivity |]. split; [reflexivity |].
  exact (proj1 (proj2 (proj2
    (loaded_rules_reach_next_turn (readable_env "")
       (world_with_path "/srv/app/RULES.md") "/srv/app/RULES.md" ""
       eq_refl ltac:(discriminate) eq_refl eq_refl)))).
Defined.

Lemma load_then_read_witness :
  Js.truthy (rulesPath (heap (world_with_path "/srv/app/RULES.md"))) = true
  /\ outcome
       (getCachedRules unreadable_env
          (world (loadRules unreadable_env
                    (world_with_path "/srv/app/RULES.md"))))
     = outcome (loadRules unreadable_env
                  (world_with_path "/srv/app/RULES.md")).
Proof.
  split; [reflexivity |].
  exact (load_then_read unreadable_env
           (world_with_path "/srv/app/RULES.md") eq_refl).
Defined.

Lemma load_ignores_cache_witness :
  rulesPath (heap (world_with_path "/srv/app/RULES.md"))
  = rulesPath
      (heap (cached (world_with_path "/srv/app/RULES.md") "stale rules"))
  /\ outcome (loadRules (readable_env "# Rules")
                (world_with_path "/srv/app/RULES.md"))
     = outcome (loadRules (readable_env "# Rules")
                  (cached (world_with_path "/srv/app/RULES.md")
                     "stale rules")).
Proof.
  split; [reflexivity |].
  exact (proj1
    (load_ignores_cache (readable_env "# Rules")
       (world_with_path "/srv/app/RULES.md")
       (cached (world_with_path "/srv/app/RULES.md") "stale rules")
       eq_refl)).
Defined.


End RulesMoreWitnesses.

(** ** Content types and the safety configuration *)

Section StaticTables.
Import App Safety.



(** X13.  Message types are allowed by an allow-list: exactly [user] and
    [assistant] pass.  Every type of the blocked set is refused, and so
    is every type that is in neither set; the two sets are disjoint. *)
Theorem message_types_allow_list (type : string) :
  (isMessageTypeAllowed type = true
   <-> type = "user" \/ type = "assistant")
  /\ (type ∈ BLOCKED_MESSAGE_TYPES -> isMessageTypeAllowed type = false)
  /\ (type ∉ ALLOWED_MESSAGE_TYPES -> isMessageTypeAllowed type = false)
  /\ ALLOWED_MESSAGE_TYPES ## BLOCKED_MESSAGE_TYPES.
Proof.
  assert (forall t, t ∈ ALLOWED_MESSAGE_TYPES
                    <-> t = "user" \/ t = "assistant") as Hallowed.
  { intros t. unfold ALLOWED_MESSAGE_TYPES.
    rewrite elem_of_list_to_set, !elem_of_cons, elem_of_nil. tauto. }
  assert (forall t, t ∈ BLOCKED_MESSAGE_TYPES ->
                    t <> "user" /\ t <> "assistant") as Hblocked.
  { intros t. unfold BLOCKED_MESSAGE_TYPES.
    rewrite elem_of_list_to_set, !elem_of_cons, elem_of_nil.
    intros H. repeat destruct H as [->|H]; done. }
  unfold isMessageTypeAllowed.
  split; [by rewrite bool_decide_eq_true |].
  split; [| split].
  - intros Hb. apply bool_decide_eq_false. rewrite Hallowed.
    destruct (Hblocked type Hb). tauto.
  - intros Hno. by apply bool_decide_eq_false.
  - intros t Ha Hb. apply Hallowed in Ha. destruct (Hblocked t Hb). tauto.
Qed.

End StaticTables.

(** ** The code blocks of a message *)

Section CodeBlockFacts.
Import CodeBlocks.

Lemma starts_with_spec (p s : list N) :
  starts_with p s = true <-> exists rest, s = p ++ rest.
Proof.
  unfold starts_with. rewrite bool_decide_eq_true. split.
  - intros Htake. exists (drop (length p) s).
    by rewrite <- Htake at 1; rewrite take_drop.
  - intros [rest ->]. by rewrite take_app_length.
Qed.

Lemma starts_with_take (p s : list N) (n : nat) :
  starts_with p (take n s) = true -> starts_with p s = true.
Proof.
  rewrite !starts_with_spec. intros [rest Hrest].
  exists (rest ++ drop n s).
  by rewrite app_assoc, <- Hrest, take_drop.
Qed.

Lemma starts_with_nil (p : list N) : p <> [] -> starts_with p [] = false.
Proof.
  intros Hp. unfold starts_with. apply bool_decide_eq_false.
  rewrite take_nil. congruence.
Qed.

Lemma word_run_prefix (s : list N) :
  s = word_run s ++ drop (length (word_run s)) s
  /\ Forall (fun c => is_word c = true) (word_run s).
Proof.
  induction s as [|c s [IHs IHw]]; simpl; [done |].
  destruct (is_word c) eqn:Hc; simpl; [| done].
  split; [by rewrite <- IHs | by constructor].
Qed.

(** The first fence of [s]: where it is, and that none comes before. *)
Lemma find_fence_Some (s : list N) (j : nat) :
  find_fence s = Some j ->
  s = take j s ++ FENCE ++ drop (j + 3) s
  /\ find_fence (take j s) = None.
Proof.
  revert j. induction s as [|c s IH]; intros j.
  - cbn [find_fence]. by rewrite starts_with_nil.
  - cbn [find_fence].
    destruct (starts_with FENCE (c :: s)) eqn:Hstart.
    + intros [= <-]. apply starts_with_spec in Hstart as [rest Hrest].
      split; [| rewrite take_0; cbn [find_fence];
                by rewrite starts_with_nil].
      rewrite Hrest. reflexivity.
    + destruct (find_fence s) as [j'|] eqn:Hs; [| done].
      intros [= <-]. destruct (IH j' eq_refl) as [Heq Hnone].
      split; [rewrite Heq at 1; reflexivity |].
      cbn [take find_fence]. rewrite Hnone.
      destruct (starts_with FENCE (c :: take j' s)) eqn:Hc; [| done].
      apply (starts_with_take FENCE (c :: s) (S j')) in Hc. congruence.
Qed.

Lemma find_fence_None_suffix (s : list N) (k : nat) :
  find_fence s = None -> find_fence (drop k s) = None.
Proof.
  revert s. induction k as [|k IH]; intros s Hs; [by rewrite drop_0 |].
  destruct s as [|c s]; [done |]. cbn [drop]. apply IH.
  cbn [find_fence] in Hs.
  destruct (starts_with FENCE (c :: s)); [done |].
  by destruct (find_fence s).
Qed.

(** What a match at the first position of [s] looks like. *)
Lemma match_here_Some (s : list N) (i : nat) (m : RegExpMatch) :
  match_here s i = Some m ->
  index m = i
  /\ whole m = fenced (group1 m) (group2 m)
  /\ s = whole m ++ drop (length (whole m)) s
  /\ Forall (fun c => is_word c = true) (group1 m)
  /\ find_fence (group2 m) = None.
Proof.
  unfold match_here.
  destruct (starts_with FENCE s) eqn:Hstart; [| done].
  apply starts_with_spec in Hstart as [s1 ->].
  change (drop 3 (FENCE ++ s1)) with s1.
  destruct (word_run_prefix s1) as [Hrun Hword].
  destruct (drop (length (word_run s1)) s1) as [|c body] eqn:Hdrop; [done |].
  destruct (c =? LF)%N eqn:Hc; [| done].
  apply N.eqb_eq in Hc as ->.
  destruct (find_fence body) as [j|] eqn:Hfence; [| done].
  intros [= <-]. cbn [index whole group1 group2].
  destruct (find_fence_Some body j Hfence) as [Hbody Hnone].
  split; [done |]. split; [done |]. split; [| done].
  assert (FENCE ++ s1
          = (FENCE ++ word_run s1 ++ [LF] ++ take j body ++ FENCE)
            ++ drop (j + 3) body) as Heq.
  { rewrite Hrun at 1. rewrite Hbody at 1.
    by rewrite <- !app_assoc. }
  rewrite Heq at 2. by rewrite drop_app_length.
Qed.

Lemma match_here_nil (i : nat) : match_here [] i = None.
Proof. reflexivity. Qed.

(** The leftmost match of [s]. *)
Lemma exec_from_Some (s : list N) (from : nat) (m : RegExpMatch) :
  exec_from s from = Some m ->
  exists k,
    index m = from + k
    /\ whole m = fenced (group1 m) (group2 m)
    /\ drop k s = whole m ++ drop (length (whole m)) (drop k s)
    /\ Forall (fun c => is_word c = true) (group1 m)
    /\ find_fence (group2 m) = None.
Proof.
  revert from. induction s as [|c s IH]; intros from; cbn [exec_from].
  - by rewrite match_here_nil.
  - destruct (match_here (c :: s) from) as [m'|] eqn:Hhere.
    + intros [= ->]. exists 0.
      destruct (match_here_Some _ _ _ Hhere) as (? & ? & ? & ? & ?).
      rewrite drop_0. split; [lia | done].
    + intros Hrest. destruct (IH _ Hrest) as (k & Hk & Hrest').
      exists (S k). split; [lia | done].
Qed.

Lemma exec_from_no_fence (s : list N) (from : nat) :
  find_fence s = None -> exec_from s from = None.
Proof.
  revert from. induction s as [|c s IH]; intros from Hs; [done |].
  cbn [exec_from find_fence] in *.
  unfold match_here.
  destruct (starts_with FENCE (c :: s)); [done |].
  apply IH. by destruct (find_fence s).
Qed.

(** [exec]: where the match lies in the content. *)
Lemma exec_Some (content : list N) (lastIndex : nat) (m : RegExpMatch) :
  exec content lastIndex = Some m ->
  lastIndex <= index m
  /\ whole m = fenced (group1 m) (group2 m)
  /\ slice content (index m) (index m + length (whole m)) = whole m
  /\ index m + length (whole m) <= length content
  /\ 7 <= length (whole m)
  /\ Forall (fun c => is_word c = true) (group1 m)
  /\ find_fence (group2 m) = None.
Proof.
  unfold exec. intros Hexec.
  destruct (exec_from_Some _ _ _ Hexec) as (k & Hk & Hwhole & Hdrop & Hw & Hf).
  rewrite drop_drop in Hdrop.
  assert (length (drop (lastIndex + k) content)
          = length (whole m)
            + length (drop (length (whole m))
                        (drop (lastIndex + k) content))) as Hlen.
  { rewrite Hdrop at 1. by rewrite length_app. }
  rewrite length_drop in Hlen.
  assert (7 <= length (whole m)) as Hseven.
  { rewrite Hwhole. unfold fenced. rewrite !length_app. simpl. lia. }
  split; [lia |]. split; [done |]. split; [| split; [lia | done]].
  unfold slice. rewrite Hk.
  replace (lastIndex + k + length (whole m) - (lastIndex + k))
    with (length (whole m)) by lia.
  rewrite Hdrop. by rewrite take_app_length.
Qed.

Lemma exec_past_end (content : list N) (lastIndex : nat) :
  length content <= lastIndex -> exec content lastIndex = None.
Proof.
  intros Hlen. unfold exec. by rewrite drop_ge.
Qed.

End CodeBlockFacts.

Section CodeBlockLoop.
Import CodeBlocks.

Local Abbreviation empty := {| textParts := []; codeBlocks := [] |}.

(** The arrays only grow: the loop appends to what they hold. *)
Lemma parse_loop_acc (fuel : nat) (content : list N) (i : nat)
  (acc : Parsed) :
  textParts (parse_loop fuel content i acc)
  = textParts acc ++ textParts (parse_loop fuel content i empty)
  /\ codeBlocks (parse_loop fuel content i acc)
     = codeBlocks acc ++ codeBlocks (parse_loop fuel content i empty).
Proof.
  assert (forall j acc',
            textParts (finish content j acc')
            = textParts acc' ++ textParts (finish content j empty)
            /\ codeBlocks (finish content j acc')
               = codeBlocks acc' ++ codeBlocks (finish content j empty))
    as Hfinish.
  { intros j acc'. unfold finish. cbn [textParts codeBlocks].
    rewrite app_nil_r. by destruct (j <? length content); rewrite ?app_nil_r. }
  revert i acc.
  induction fuel as [|fuel IH]; intros i acc; [apply Hfinish |].
  cbn [parse_loop]. destruct (exec content i) as [m|]; [| apply Hfinish].
  set (e := index m + length (whole m)).
  set (b := {| language := or_else (group1 m) TEXT; code := group2 m;
               startIndex := index m; endIndex := e |}).
  destruct (IH e {| textParts :=
                      if i <? index m
                      then textParts acc ++ [slice content i (index m)]
                      else textParts acc;
                    codeBlocks := codeBlocks acc ++ [b] |}) as [-> ->].
  destruct (IH e {| textParts :=
                      if i <? index m
                      then textParts empty ++ [slice content i (index m)]
                      else textParts empty;
                    codeBlocks := codeBlocks empty ++ [b] |}) as [-> ->].
  cbn [textParts codeBlocks].
  split; [| by rewrite <- app_assoc].
  destruct (i <? index m); [| done]. by rewrite <- app_assoc.
Qed.

(** One iteration, on empty arrays. *)
Lemma parse_loop_step (fuel : nat) (content : list N) (i : nat)
  (m : RegExpMatch) :
  exec content i = Some m ->
  textParts (parse_loop (S fuel) content i empty)
  = (if i <? index m then [slice content i (index m)] else [])
    ++ textParts (parse_loop fuel content (index m + length (whole m))
                    empty)
  /\ codeBlocks (parse_loop (S fuel) content i empty)
     = {| language := or_else (group1 m) TEXT; code := group2 m;
          startIndex := index m;
          endIndex := index m + length (whole m) |}
       :: codeBlocks (parse_loop fuel content
                        (index m + length (whole m)) empty).
Proof.
  intros Hexec. cbn [parse_loop]. rewrite Hexec.
  match goal with
  | |- context [parse_loop fuel content ?e ?a] =>
      destruct (parse_loop_acc fuel content e a) as [-> ->]
  end.
  cbn [textParts codeBlocks]. split; [| done].
  by destruct (i <? index m).
Qed.

Lemma parse_loop_stop (fuel : nat) (content : list N) (i : nat) :
  exec content i = None ->
  parse_loop fuel content i empty = finish content i empty.
Proof. intros Hexec. destruct fuel; [done |]. cbn. by rewrite Hexec. Qed.

(** The bound on the iterations does not matter once it is large enough
    for the rest of the content. *)
Lemma parse_loop_fuel (fuel fuel' : nat) (content : list N) (i : nat)
  (acc : Parsed) :
  length content <= i + fuel -> length content <= i + fuel' ->
  parse_loop fuel content i acc = parse_loop fuel' content i acc.
Proof.
  revert fuel' i acc.
  induction fuel as [|fuel IH]; intros fuel' i acc Hfuel Hfuel'.
  - cbn [parse_loop]. destruct fuel' as [|fuel']; [done |].
    cbn [parse_loop]. rewrite exec_past_end by lia. done.
  - cbn [parse_loop].
    destruct (exec content i) as [m|] eqn:Hexec.
    + destruct fuel' as [|fuel'].
      { rewrite exec_past_end in Hexec by lia. done. }
      cbn [parse_loop]. rewrite Hexec.
      destruct (exec_Some _ _ _ Hexec) as (? & _ & _ & _ & ? & _).
      apply IH; lia.
    + destruct fuel' as [|fuel']; [done |].
      cbn [parse_loop]. by rewrite Hexec.
Qed.

Lemma length_slice (content : list N) (from to : nat) :
  from <= to -> to <= length content ->
  length (slice content from to) = to - from.
Proof.
  intros Hft Hto. unfold slice. rewrite length_take, length_drop. lia.
Qed.

(** What the parts cover, from [i] on. *)
Lemma parse_loop_covered (fuel : nat) (content : list N) (i : nat) :
  i <= length content ->
  covered (parse_loop fuel content i empty) = length content - i.
Proof.
  assert (forall j, j <= length content ->
            covered (finish content j empty) = length content - j)
    as Hfinish.
  { intros j Hj. unfold covered, finish. cbn [textParts codeBlocks].
    destruct (j <? length content) eqn:Hlt.
    - cbn. rewrite length_drop. lia.
    - apply Nat.ltb_ge in Hlt. cbn. lia. }
  revert i. induction fuel as [|fuel IH]; intros i Hi; [by apply Hfinish |].
  destruct (exec content i) as [m|] eqn:Hexec.
  - destruct (exec_Some _ _ _ Hexec) as (Hle & _ & _ & Hend & Hseven & _).
    destruct (parse_loop_step fuel content i m Hexec) as [Ht Hc].
    specialize (IH (index m + length (whole m)) Hend).
    unfold covered in *. rewrite Ht, Hc, sum_list_with_app.
    cbn [sum_list_with startIndex endIndex].
    destruct (i <? index m) eqn:Hlt.
    + cbn [sum_list_with]. rewrite length_slice by lia.
      apply Nat.ltb_lt in Hlt. lia.
    + apply Nat.ltb_ge in Hlt. cbn [sum_list_with]. lia.
  - rewrite parse_loop_stop by done. by apply Hfinish.
Qed.

(** The blocks and the text parts, from [i] on. *)
Lemma parse_loop_blocks (fuel : nat) (content : list N) (i : nat) :
  Forall (block_of content) (codeBlocks (parse_loop fuel content i empty))
  /\ in_order i (codeBlocks (parse_loop fuel content i empty))
  /\ Forall (fun t => t <> []) (textParts (parse_loop fuel content i empty)).
Proof.
  assert (forall j,
            Forall (block_of content) (codeBlocks (finish content j empty))
            /\ in_order j (codeBlocks (finish content j empty))
            /\ Forall (fun t => t <> [])
                 (textParts (finish content j empty))) as Hfinish.
  { intros j. unfold finish. cbn [textParts codeBlocks].
    split; [done |]. split; [done |].
    destruct (j <? length content) eqn:Hlt; [| done].
    apply Nat.ltb_lt in Hlt. repeat constructor.
    intros Hnil. apply (f_equal length) in Hnil.
    rewrite length_drop in Hnil. simpl in Hnil. lia. }
  revert i. induction fuel as [|fuel IH]; intros i; [apply Hfinish |].
  destruct (exec content i) as [m|] eqn:Hexec.
  - destruct (exec_Some _ _ _ Hexec)
      as (Hle & Hwhole & Hslice & Hend & Hseven & Hword & Hnone).
    destruct (parse_loop_step fuel content i m Hexec) as [-> ->].
    destruct (IH (index m + length (whole m))) as (IHb & IHo & IHt).
    split; [| split].
    + constructor; [| done]. exists (group1 m).
      cbn [startIndex endIndex code language].
      rewrite <- Hwhole. done.
    + cbn [in_order startIndex endIndex]. split; [done |].
      split; [lia | done].
    + apply Forall_app. split; [| done].
      destruct (i <? index m) eqn:Hlt; [| done].
      apply Nat.ltb_lt in Hlt. repeat constructor.
      intros Hnil. apply (f_equal length) in Hnil.
      rewrite length_slice in Hnil by lia. simpl in Hnil. lia.
  - rewrite parse_loop_stop by done. apply Hfinish.
Qed.

(** X14.  Nothing of the content is lost or counted twice: the lengths
    of the text parts and the extents of the code blocks add up to the
    length of the content.  The loop ends within [length content]
    iterations: a larger bound gives the same result. *)
Theorem parseCodeBlocks_covers_content (content : list N) :
  covered (parseCodeBlocks content) = length content
  /\ forall fuel,
       length content <= fuel ->
       parse_loop fuel content 0 empty = parseCodeBlocks content.
Proof.
  split.
  - unfold parseCodeBlocks. rewrite parse_loop_covered by lia. lia.
  - intros fuel Hfuel. unfold parseCodeBlocks.
    apply parse_loop_fuel; lia.
Qed.

(** X15.  Every code block is cut out of the content: from its start
    index to its end index the content reads fence, language tag of word
    characters, line feed, code, fence.  The code holds no fence, the
    language is the tag, or [text] when the tag is empty, so it is never
    empty.  The blocks come in the order of the content and do not
    overlap. *)
Theorem parseCodeBlocks_blocks (content : list N) :
  Forall (block_of content) (codeBlocks (parseCodeBlocks content))
  /\ in_order 0 (codeBlocks (parseCodeBlocks content))
  /\ Forall (fun b => language b <> []
                      /\ Forall (fun c => is_word c = true) (language b)
                      /\ startIndex b + 7 <= endIndex b
                      /\ endIndex b <= length content)
       (codeBlocks (parseCodeBlocks content)).
Proof.
  unfold parseCodeBlocks.
  destruct (parse_loop_blocks (length content) content 0) as (Hb & Ho & _).
  split; [done |]. split; [done |].
  eapply Forall_impl; [exact Hb |].
  intros b (tag & _ & Hend & Hlen & Hword & Hlang & _). rewrite Hlang, Hend.
  unfold fenced. rewrite !length_app. cbn [length FENCE].
  split; [| split; [| split; [lia |]]].
  - by destruct tag.
  - destruct tag; [| done]. cbn. by repeat constructor.
  - rewrite Hend in Hlen. unfold fenced in Hlen.
    rewrite !length_app in Hlen. cbn [length FENCE] in Hlen. lia.
Qed.

(** X16.  No text part is empty.  When the expression matches nowhere, in
    particular when the content holds no fence, there is no code block and
    the content, unless it is empty, is the only text part; and when
    there is no code block the expression matched nowhere. *)
Theorem parseCodeBlocks_text (content : list N) :
  Forall (fun t => t <> []) (textParts (parseCodeBlocks content))
  /\ (exec content 0 = None ->
      parseCodeBlocks content
      = {| textParts := match content with [] => [] | _ => [content] end;
           codeBlocks := [] |})
  /\ (find_fence content = None -> exec content 0 = None)
  /\ (codeBlocks (parseCodeBlocks content) = [] -> exec content 0 = None).
Proof.
  unfold parseCodeBlocks. split; [| split; [| split]].
  - by destruct (parse_loop_blocks (length content) content 0)
      as (_ & _ & Ht).
  - intros Hexec. rewrite parse_loop_stop by done.
    unfold finish. cbn [textParts codeBlocks]. by destruct content.
  - intros Hnone. unfold exec. rewrite drop_0.
    by apply exec_from_no_fence.
  - intros Hblocks. destruct (exec content 0) as [m|] eqn:Hexec; [| done].
    destruct (length content) as [|fuel] eqn:Hlen.
    + rewrite exec_past_end in Hexec by lia. done.
    + destruct (parse_loop_step fuel content 0 m Hexec) as [_ Hc].
      rewrite Hc in Hblocks. done.
Qed.

Lemma split_lines_length (s : list N) :
  length (split_lines s) = S (length (filter (fun c => c = LF) s)).
Proof.
  induction s as [|c s IH]; [done |]. cbn [split_lines].
  destruct (c =? LF)%N eqn:Hc.
  - apply N.eqb_eq in Hc. rewrite filter_cons_True by done.
    cbn [length]. by rewrite IH.
  - apply N.eqb_neq in Hc. rewrite filter_cons_False by done.
    destruct (split_lines s) as [|line lines]; [done |].
    by rewrite <- IH.
Qed.

Lemma count_terminated_lines (lines : list (list N)) :
  Forall (fun line => LF ∉ line) lines ->
  length (filter (fun c => c = LF)
            (concat ((fun line => line ++ [LF]) <$> lines)))
  = length lines.
Proof.
  induction 1 as [|line lines Hline _ IH]; [done |].
  cbn [fmap list_fmap concat]. rewrite !filter_app, !length_app, IH.
  rewrite (filter_cons_True _ LF) by done.
  assert (filter (fun c => c = LF) line = []) as ->; [| done].
  clear -Hline. induction line as [|c line IH]; [done |].
  apply not_elem_of_cons in Hline as [Hc Hline].
  rewrite filter_cons_False by done. by apply IH.
Qed.

(** X17.  The line count of a block is one more than the number of line
    feeds of its code, and the block is folded exactly when the code
    holds at least ten line feeds.  So a block of [n] lines that each end
    in a line feed counts [n + 1] lines, and is folded from ten lines
    on. *)
Theorem code_block_folding (block : CodeBlock) :
  lineCount block
  = S (length (filter (fun c => c = LF) (code block)))
  /\ (shouldFold block = true
      <-> 10 <= length (filter (fun c => c = LF) (code block)))
  /\ forall lines,
       Forall (fun line => LF ∉ line) lines ->
       code block = concat ((fun line => line ++ [LF]) <$> lines) ->
       lineCount block = S (length lines)
       /\ (shouldFold block = true <-> 10 <= length lines).
Proof.
  assert (lineCount block
          = S (length (filter (fun c => c = LF) (code block)))) as Hcount.
  { apply split_lines_length. }
  assert (shouldFold block = true
          <-> 10 <= length (filter (fun c => c = LF) (code block)))
    as Hfold.
  { unfold shouldFold, Safety.FOLD_THRESHOLD.
    rewrite Nat.ltb_lt, Hcount. lia. }
  split; [done |]. split; [done |].
  intros lines Hlines Hcode.
  rewrite Hfold, Hcount, Hcode, count_terminated_lines by done. done.
Qed.

End CodeBlockLoop.

(** ** The generator run against its consumer *)

Section GeneratorFacts.
Import Runtime Relay.

Lemma gen_bind_normal {A B} (m : Gen A) (k : A -> Gen B) (env : Env)
  (c : Consumer) (n : nat) (w w' : World) (a : A)
  (ds : list StreamResponse) :
  m env c n w = {| completion := Normal a; delivered := ds; after := w' |} ->
  (m ≫= k) env c n w
  = {| completion := completion (k a env c (n + length ds) w');
       delivered := ds ++ delivered (k a env c (n + length ds) w');
       after := after (k a env c (n + length ds) w') |}.
Proof. intros H. unfold mbind, Gen_bind, gen_bind. by rewrite H. Qed.

Lemma gen_bind_throws {A B} (m : Gen A) (k : A -> Gen B) (env : Env)
  (c : Consumer) (n : nat) (w w' : World) (e : Js.Thrown)
  (ds : list StreamResponse) :
  m env c n w = {| completion := Throws e; delivered := ds; after := w' |} ->
  (m ≫= k) env c n w
  = {| completion := Throws e; delivered := ds; after := w' |}.
Proof. intros H. unfold mbind, Gen_bind, gen_bind. by rewrite H. Qed.

Lemma gen_bind_returns {A B} (m : Gen A) (k : A -> Gen B) (env : Env)
  (c : Consumer) (n : nat) (w w' : World) (ds : list StreamResponse) :
  m env c n w = {| completion := Returns; delivered := ds; after := w' |} ->
  (m ≫= k) env c n w
  = {| completion := Returns; delivered := ds; after := w' |}.
Proof. intros H. unfold mbind, Gen_bind, gen_bind. by rewrite H. Qed.

Lemma lift_run {A} (m : Async A) (env : Env) (c : Consumer) (n : nat)
  (w w' : World) (a : A) :
  m env w = {| outcome := inr a; yielded := []; world := w' |} ->
  lift m env c n w
  = {| completion := Normal a; delivered := []; after := w' |}.
Proof. intros H. unfold lift. by rewrite H. Qed.

Lemma suspend_run (env : Env) (w : World) :
  suspend env w
  = {| outcome := inr tt; yielded := [];
       world := after_suspensions (others env) 1 w |}.
Proof. reflexivity. Qed.

(** The loop over the SDK's messages: all of them are delivered, or the
    consumer closes the generator at the first one it refuses. *)
Lemma gen_for_each_run (env : Env) (c : Consumer) (items : list Js.Json)
  (n : nat) (w : World) :
  match first_refused c n (ClaudeJson <$> items) with
  | None =>
      gen_for_each items (fun m => gen_yield (ClaudeJson m)) env c n w
      = {| completion := Normal tt;
           delivered := ClaudeJson <$> items;
           after := after_suspensions (others env) (length items * 2) w |}
  | Some j =>
      exists k,
        gen_for_each items (fun m => gen_yield (ClaudeJson m)) env c n w
        = {| completion := Returns;
             delivered := take (S j) (ClaudeJson <$> items);
             after := after_suspensions (others env) k w |}
  end.
Proof.
  revert n w. induction items as [|x items IH]; intros n w; [done |].
  cbn [fmap list_fmap first_refused gen_for_each].
  erewrite gen_bind_normal by (apply lift_run, suspend_run).
  rewrite Nat.add_0_r, app_nil_l.
  destruct (c n (ClaudeJson x)) eqn:Haccept.
  - assert (closing (gen_yield (ClaudeJson x)) env c n
              (after_suspensions (others env) 1 w)
            = {| completion := Normal tt; delivered := [ClaudeJson x];
                 after := after_suspensions (others env) 2 w |}) as Hyield.
    { unfold closing, gen_yield. cbn [completion]. by rewrite Haccept. }
    erewrite gen_bind_normal by exact Hyield.
    cbn [length]. rewrite Nat.add_1_r.
    specialize (IH (S n) (after_suspensions (others env) 2 w)).
    destruct (first_refused c (S n) (ClaudeJson <$> items)) as [j|].
    + destruct IH as [k IH]. exists (2 + k).
      rewrite IH. cbn [completion delivered after fmap option_fmap
                       option_map].
      by rewrite after_suspensions_add.
    + rewrite IH. cbn [completion delivered after fmap option_fmap
                       option_map].
      by rewrite after_suspensions_add.
  - exists 3.
    assert (closing (gen_yield (ClaudeJson x)) env c n
              (after_suspensions (others env) 1 w)
            = {| completion := Returns; delivered := [ClaudeJson x];
                 after := after_suspensions (others env) 3 w |}) as Hyield.
    { unfold closing, gen_yield. cbn [completion]. by rewrite Haccept. }
    erewrite gen_bind_returns by exact Hyield.
    reflexivity.
Qed.

Lemma gen_yield_run (v : StreamResponse) (env : Env) (c : Consumer)
  (n : nat) (w : World) :
  gen_yield v env c n w
  = {| completion := if c n v then Normal tt else Returns;
       delivered := [v];
       after := after_suspensions (others env) 1 w |}.
Proof. reflexivity. Qed.

(** A step of the generator that delivers nothing and leaves the world
    alone. *)
Lemma gen_bind_silent {A B} (m : Async A) (k : A -> Gen B) (env : Env)
  (c : Consumer) (n : nat) (w : World) (a : A) :
  m env w = {| outcome := inr a; yielded := []; world := w |} ->
  (lift m ≫= k) env c n w = k a env c n w.
Proof.
  intros H. unfold mbind, Gen_bind, gen_bind, lift. rewrite H.
  cbn [completion delivered after outcome yielded world length app].
  rewrite Nat.add_0_r. by destruct (k a env c n w).
Qed.

Lemma gen_bind_raise {A B} (m : Async A) (k : A -> Gen B) (env : Env)
  (c : Consumer) (n : nat) (w : World) (e : Js.Thrown) :
  m env w = {| outcome := inl e; yielded := []; world := w |} ->
  (lift m ≫= k) env c n w
  = {| completion := Throws e; delivered := []; after := w |}.
Proof.
  intros H. unfold mbind, Gen_bind, gen_bind, lift. by rewrite H.
Qed.

Lemma relay_catch_block_run (e : Js.Thrown) (env : Env) (c : Consumer)
  (n : nat) (w : World) :
  Relay.catch_block e env c n w
  = match Chat.caught e with
    | inr final => gen_yield final env c n w
    | inl e' => {| completion := Throws e'; delivered := []; after := w |}
    end.
Proof.
  destruct e as [[e1|[]] [e2|message] [e3|name] [e4|s]];
    unfold Relay.catch_block, Chat.caught;
    cbn [Js.instanceof_Error Js.message_of Js.name_of Js.String_];
    repeat first
      [ reflexivity
      | erewrite gen_bind_silent by reflexivity
      | erewrite gen_bind_raise by reflexivity
      | progress change (Js.strict_equal (Js.Str "") "AbortError")
          with false
      | progress change (Js.includes_of (Js.Str "") "aborted by user")
          with (@inr Js.Thrown bool false)
      | progress change (Js.truthy_value (Js.Str "")) with false
      | progress change (Js.includes "" "aborted by user") with false
      | progress cbv beta iota
      | match goal with
        | |- context [Js.strict_equal ?x ?y] =>
            destruct (Js.strict_equal x y)
        | |- context [Js.includes_of ?x ?y] =>
            destruct (Js.includes_of x y) as [?|[]]
        | |- context [Js.truthy_value ?x] =>
            destruct (Js.truthy_value x)
        end ].
Qed.

Lemma first_refused_app (c : Consumer) (n : nat)
  (l1 l2 : list StreamResponse) :
  first_refused c n (l1 ++ l2)
  = match first_refused c n l1 with
    | Some j => Some j
    | None =>
        (fun j => length l1 + j) <$> first_refused c (n + length l1) l2
    end.
Proof.
  revert n. induction l1 as [|v l1 IH]; intros n.
  - cbn. rewrite Nat.add_0_r. by destruct (first_refused c n l2).
  - cbn [app first_refused length]. destruct (c n v); [| done].
    rewrite IH. destruct (first_refused c (S n) l1); [done |].
    replace (n + S (length l1)) with (S n + length l1) by lia.
    by destruct (first_refused c (S n + length l1) l2).
Qed.

Lemma first_refused_lt (c : Consumer) (n : nat) (l : list StreamResponse)
  (j : nat) :
  first_refused c n l = Some j ->
  j < length l
  /\ exists v, l !! j = Some v /\ c (n + j) v = false.
Proof.
  revert n j. induction l as [|v l IH]; intros n j; [done |].
  cbn [first_refused length]. destruct (c n v) eqn:Hc.
  - destruct (first_refused c (S n) l) as [j'|] eqn:Hl; [| done].
    intros [= <-]. destruct (IH _ _ Hl) as (Hlt & v' & Hv' & Hc').
    split; [lia |]. exists v'. split; [done |].
    by replace (n + S j') with (S n + j') by lia.
  - intros [= <-]. split; [lia |]. exists v.
    by rewrite Nat.add_0_r.
Qed.

(** The [try] block against a consumer. *)
Lemma relay_try_block_run (env : Env) (c : Consumer) (w : World)
  (message requestId cliPath : string) (sessionId : option string)
  (allowedTools : option (list string))
  (workingDirectory permissionMode : option string) :
  let call :=
    {| prompt := Chat.injected w sessionId (Chat.strip_slash message);
       options := Chat.query_options {| controller_id := created w |}
                    cliPath sessionId (Tools.getAllowedTools allowedTools)
                    workingDirectory permissionMode |} in
  let run := engine env call in
  let items := ClaudeJson <$> emitted run in
  match first_refused c 0 items with
  | Some j =>
      exists k,
        Relay.try_block message requestId cliPath sessionId allowedTools
          workingDirectory permissionMode env c 0 w
        = {| completion := Returns;
             delivered := take (S j) items;
             after := after_suspensions (others env) k
                        (Chat.started w requestId call) |}
  | None =>
      Relay.try_block message requestId cliPath sessionId allowedTools
        workingDirectory permissionMode env c 0 w
      = match failure run with
        | Some e =>
            {| completion := Throws e;
               delivered := items;
               after := after_suspensions (others env)
                          (length (emitted run) * 2 + 1)
                          (Chat.started w requestId call) |}
        | None =>
            {| completion :=
                 if c (length (emitted run)) Done then Normal tt
                 else Returns;
               delivered := items ++ [Done];
               after := after_suspensions (others env)
                          (length (emitted run) * 2 + 2)
                          (Chat.started w requestId call) |}
        end
  end.
Proof.
  intros call run items. unfold Relay.try_block.
  rewrite processed_message.
  erewrite gen_bind_normal by (apply lift_run, new_AbortController_run).
  erewrite gen_bind_normal by (apply lift_run, map_set_run).
  erewrite gen_bind_normal by (apply lift_run, prepare_run).
  erewrite gen_bind_normal by (apply lift_run, query_run).
  cbn [app length heap created suspensions engine_log
       requestAbortControllers cachedRules rulesPath].
  rewrite !Nat.add_0_r.
  change (Chat.injected _ sessionId (Chat.strip_slash message))
    with (Chat.injected w sessionId (Chat.strip_slash message)).
  fold call. fold run. fold (Chat.started w requestId call).
  unfold gen_for_await.
  pose proof (gen_for_each_run env c (emitted run) 0
                (Chat.started w requestId call)) as Hloop.
  fold items in Hloop.
  destruct (first_refused c 0 items) as [j|].
  - destruct Hloop as [k Hloop]. exists k.
    erewrite gen_bind_returns; [reflexivity |].
    erewrite gen_bind_returns; [reflexivity | exact Hloop].
  - destruct (failure run) as [e|].
    + erewrite (gen_bind_throws _ (fun _ => gen_yield Done)).
      { reflexivity. }
      erewrite gen_bind_normal by exact Hloop.
      erewrite gen_bind_normal by (apply lift_run, suspend_run).
      cbn [completion delivered after lift throw outcome yielded world].
      by rewrite !app_nil_r, after_suspensions_add.
    + erewrite (gen_bind_normal _ (fun _ => gen_yield Done)).
      2: { erewrite gen_bind_normal by exact Hloop.
           erewrite gen_bind_normal by (apply lift_run, suspend_run).
           cbn [completion delivered after mret Gen_ret gen_ret].
           rewrite !app_nil_r, after_suspensions_add. reflexivity. }
      rewrite gen_yield_run. cbn [completion delivered after app].
      unfold items. rewrite length_fmap, after_suspensions_add.
      cbn [Nat.add].
      by replace (length (emitted run) * 2 + 1 + 1)
        with (length (emitted run) * 2 + 2) by lia.
Qed.

Lemma relay_finally_run (requestId : string) (env : Env) (c : Consumer)
  (n : nat) (w : World) :
  lift (Chat.finally_block requestId) env c n w
  = {| completion := Normal tt; delivered := [];
       after := Chat.released w requestId |}.
Proof. apply lift_run, finally_block_run. Qed.

(** The whole generator against a consumer. *)
Lemma relay_turn_run (env : Env) (c : Consumer) (w : World)
  (message requestId cliPath : string) (sessionId : option string)
  (allowedTools : option (list string))
  (workingDirectory permissionMode : option string) :
  let call :=
    {| prompt := Chat.injected w sessionId (Chat.strip_slash message);
       options := Chat.query_options {| controller_id := created w |}
                    cliPath sessionId (Tools.getAllowedTools allowedTools)
                    workingDirectory permissionMode |} in
  let run := engine env call in
  match first_refused c 0 (Chat.events_of run) with
  | None =>
      Relay.executeClaudeCommand message requestId cliPath sessionId
        allowedTools workingDirectory permissionMode env c 0 w
      = {| completion := match Chat.terminal_event (failure run) with
                         | inr _ => Normal tt
                         | inl e => Throws e
                         end;
           delivered := Chat.events_of run;
           after := Chat.released
                      (after_suspensions (others env) (Chat.steps_of run)
                         (Chat.started w requestId call)) requestId |}
  | Some j =>
      exists k,
        Relay.executeClaudeCommand message requestId cliPath sessionId
          allowedTools workingDirectory permissionMode env c 0 w
        = {| completion := Returns;
             delivered := take (S j) (Chat.events_of run);
             after := Chat.released
                        (after_suspensions (others env) k
                           (Chat.started w requestId call)) requestId |}
  end.
Proof.
  intros call run.
  pose proof (relay_try_block_run env c w message requestId cliPath
                sessionId allowedTools workingDirectory permissionMode)
    as Htry.
  cbv zeta in Htry. fold call in Htry. fold run in Htry.
  unfold Chat.events_of, Chat.steps_of. rewrite first_refused_app.
  unfold Relay.executeClaudeCommand, gen_try_finally, gen_try_catch.
  destruct (first_refused c 0 (ClaudeJson <$> emitted run)) as [j|] eqn:Hj;
    rewrite ?Hj in Htry; cbv beta iota in Htry.
  - destruct Htry as [k Htry]. exists k. rewrite Htry.
    cbn [completion delivered after]. rewrite relay_finally_run.
    cbn [completion delivered after]. rewrite app_nil_r.
    apply first_refused_lt in Hj as [Hj _].
    by rewrite take_app_le by lia.
  - rewrite Htry. rewrite Nat.add_0_l, length_fmap.
    destruct (failure run) as [e|];
      cbn [completion delivered after Chat.terminal_event].
    + rewrite relay_catch_block_run.
      destruct (Chat.caught e) as [e'|final].
      * cbn [completion delivered after first_refused fmap option_fmap
             option_map].
        rewrite relay_finally_run. cbn [completion delivered after].
        by rewrite !app_nil_r.
      * rewrite gen_yield_run. cbn [completion delivered after].
        rewrite relay_finally_run. cbn [completion delivered after].
        rewrite Nat.add_0_l, length_fmap, app_nil_r, after_suspensions_add.
        replace (length (emitted run) * 2 + 1 + 1)
          with (length (emitted run) * 2 + 2) by lia.
        cbn [first_refused].
        destruct (c (length (emitted run)) final);
          cbn [fmap option_fmap option_map].
        -- reflexivity.
        -- eexists. rewrite take_ge; [reflexivity |].
           rewrite length_app, length_fmap. cbn. lia.
    + rewrite relay_finally_run. cbn [completion delivered after].
      rewrite app_nil_r. cbn [first_refused].
      destruct (c (length (emitted run)) Done);
        cbn [fmap option_fmap option_map].
      * reflexivity.
      * eexists. rewrite take_ge; [reflexivity |].
        rewrite length_app, length_fmap. cbn. lia.
Qed.

End GeneratorFacts.

(** ** The relay *)

Section RelayFacts.
Import Runtime Relay.

Lemma loop_body_inr (client : Client) (n : nat) (v : StreamResponse)
  (data : string) :
  loop_body client n v = inr data ->
  data = line client v /\ usable client n = true.
Proof.
  unfold loop_body, line.
  destruct (JSON_stringify client v) as [e|json]; [done |].
  destruct (usable client n); [| done]. by intros [= <-].
Qed.

(** The loop of [start] over the values the generator delivers. *)
Lemma pump_run (client : Client) (n : nat) (values : list StreamResponse)
  (enqueued : list string) :
  match first_refused (accepts client) n values with
  | None =>
      pump client n values enqueued
      = (None, enqueued ++ (line client <$> values))
  | Some j =>
      exists v e,
        values !! j = Some v
        /\ loop_body client (n + j) v = inl e
        /\ pump client n (take (S j) values) enqueued
           = (Some e, enqueued ++ (line client <$> take j values))
  end.
Proof.
  revert n enqueued.
  induction values as [|v values IH]; intros n enqueued.
  - cbn. by rewrite app_nil_r.
  - cbn [first_refused]. unfold accepts at 1.
    destruct (loop_body client n v) as [e|data] eqn:Hbody.
    + exists v, e. rewrite Nat.add_0_r.
      split; [done |]. split; [done |].
      cbn [take pump]. rewrite Hbody. cbn. by rewrite app_nil_r.
    + apply loop_body_inr in Hbody as Hdata. destruct Hdata as [-> _].
      specialize (IH (S n) (enqueued ++ [line client v])).
      destruct (first_refused (accepts client) (S n) values) as [j|];
        cbn [fmap option_fmap option_map].
      * destruct IH as (v' & e & Hv' & He & Hpump).
        exists v', e. split; [done |].
        split; [by replace (n + S j) with (S n + j) by lia |].
        cbn [take pump]. rewrite Hbody, Hpump.
        cbn [fmap list_fmap]. by rewrite <- app_assoc.
      * cbn [pump]. rewrite Hbody, IH.
        cbn [fmap list_fmap]. by rewrite <- app_assoc.
Qed.

Context (env : Env) (w : World).
Context (message requestId cliPath : string).
Context (sessionId : option string).
Context (allowedTools : option (list string)).
Context (workingDirectory permissionMode : option string).

Local Abbreviation generator :=
  (Relay.executeClaudeCommand message requestId cliPath sessionId
     allowedTools workingDirectory permissionMode env).

Local Abbreviation whole_turn :=
  (Chat.executeClaudeCommand message requestId cliPath sessionId
     allowedTools workingDirectory permissionMode env w).

Local Abbreviation the_call :=
  {| prompt := Chat.injected w sessionId (Chat.strip_slash message);
     options := Chat.query_options {| controller_id := created w |}
                  cliPath sessionId (Tools.getAllowedTools allowedTools)
                  workingDirectory permissionMode |}.

Lemma whole_turn_events :
  yielded whole_turn = Chat.events_of (engine env the_call).
Proof. by rewrite executeClaudeCommand_run. Qed.

(** The generator against a consumer, in terms of the whole turn. *)
Lemma generator_run (c : Consumer) :
  match first_refused c 0 (yielded whole_turn) with
  | None =>
      generator c 0 w
      = {| completion := match outcome whole_turn with
                         | inr _ => Normal tt
                         | inl e => Throws e
                         end;
           delivered := yielded whole_turn;
           after := world whole_turn |}
  | Some j =>
      exists k,
        generator c 0 w
        = {| completion := Returns;
             delivered := take (S j) (yielded whole_turn);
             after := Chat.released
                        (after_suspensions (others env) k
                           (Chat.started w requestId the_call))
                        requestId |}
  end.
Proof.
  pose proof (relay_turn_run env c w message requestId cliPath sessionId
                allowedTools workingDirectory permissionMode) as Hrun.
  cbv zeta in Hrun. rewrite whole_turn_events.
  destruct (first_refused c 0 _) as [j|]; [done |].
  rewrite Hrun, executeClaudeCommand_run. cbn [outcome yielded world].
  by destruct (Chat.terminal_event _).
Qed.




(** X18.  For every consumer that asks for the next value or closes the
    generator, what the generator delivers is an initial part of the
    events of the whole turn, the engine was called once, and when the
    generator is over the map has no entry for [requestId]: closing the
    generator early runs the clean-up too.  The generator throws only
    what its [catch] block threw, after it delivered every event. *)
Theorem generator_cleans_up_when_closed (c : Consumer) :
  (completion (generator c 0 w) = Normal tt
   \/ completion (generator c 0 w) = Returns
   \/ exists e,
        completion (generator c 0 w) = Throws e
        /\ Chat.terminal_event (failure (engine env the_call)) = inl e
        /\ delivered (generator c 0 w) = yielded whole_turn)
  /\ delivered (generator c 0 w) `prefix_of` yielded whole_turn
  /\ requestAbortControllers (heap (after (generator c 0 w)))
       !! requestId = None
  /\ engine_log (after (generator c 0 w)) = engine_log w ++ [the_call].
Proof.
  pose proof (generator_run c) as Hrun.
  destruct (first_refused c 0 (yielded whole_turn)) as [j|].
  - destruct Hrun as [k ->]. cbn [completion delivered after].
    split; [right; by left |].
    split; [eexists; symmetry; apply take_drop |].
    split; [apply lookup_delete_eq | apply engine_saw_started].
  - rewrite Hrun. cbn [completion delivered after].
    rewrite executeClaudeCommand_run. cbn [outcome yielded world].
    split.
    { destruct (Chat.terminal_event _) as [e|final]; [| by left].
      right; right. by exists e. }
    split; [done |].
    split; [apply lookup_delete_eq | apply engine_saw_started].
Qed.

(** X19.  A consumer that takes every value gets the events of the whole
    turn, and the generator completes as the whole turn does and leaves
    the world as the whole turn does.  A consumer that refuses a value
    gets the events up to that value and nothing after it; if it refuses
    before the last event, it gets no terminal event. *)
Theorem generator_against_consumer (c : Consumer) :
  (first_refused c 0 (yielded whole_turn) = None ->
   generator c 0 w
   = {| completion := match outcome whole_turn with
                      | inr _ => Normal tt
                      | inl e => Throws e
                      end;
        delivered := yielded whole_turn;
        after := world whole_turn |})
  /\ (forall j,
        first_refused c 0 (yielded whole_turn) = Some j ->
        completion (generator c 0 w) = Returns
        /\ delivered (generator c 0 w) = take (S j) (yielded whole_turn)
        /\ (S j < length (yielded whole_turn) ->
            Forall (fun ev => Chat.is_terminal ev = false)
              (delivered (generator c 0 w)))).
Proof.
  pose proof (generator_run c) as Hrun. split.
  - intros Hnone. by rewrite Hnone in Hrun.
  - intros j Hsome. rewrite Hsome in Hrun. destruct Hrun as [k ->].
    cbn [completion delivered]. split; [done |]. split; [done |].
    rewrite whole_turn_events. unfold Chat.events_of.
    rewrite length_app, length_fmap. intros Hj.
    assert (Forall (fun ev => Chat.is_terminal ev = false)
              (ClaudeJson <$> emitted (engine env the_call))) as Hjson.
    { apply Forall_forall. intros ev Hev.
      by apply list_elem_of_fmap in Hev as (x & -> & _). }
    destruct (Chat.terminal_event _) as [e'|final].
    + rewrite app_nil_r. by apply Forall_take.
    + cbn [length] in Hj.
      rewrite take_app_le by (rewrite length_fmap; lia).
      by apply Forall_take.
Qed.

Context (client : Client).

Local Abbreviation request :=
  {| Relay.message := message; Relay.requestId := requestId;
     Relay.sessionId := sessionId; Relay.allowedTools := allowedTools;
     Relay.workingDirectory := workingDirectory;
     Relay.permissionMode := permissionMode |}.

Local Abbreviation response :=
  (handleChatRequest client request cliPath env w).

(** The handler, by what the loop of [start] does with the events. *)
Lemma handleChatRequest_run :
  match first_refused (accepts client) 0 (yielded whole_turn) with
  | None =>
      response
      = (match outcome whole_turn with
         | inr _ =>
             match close client (line client <$> yielded whole_turn) with
             | inr stream => stream
             | inl e =>
                 on_error client (line client <$> yielded whole_turn) e
             end
         | inl e => on_error client (line client <$> yielded whole_turn) e
         end,
         world whole_turn)
  | Some j =>
      exists v e k,
        yielded whole_turn !! j = Some v
        /\ loop_body client j v = inl e
        /\ response
           = (on_error client (line client <$> take j (yielded whole_turn))
                e,
              Chat.released
                (after_suspensions (others env) k
                   (Chat.started w requestId the_call)) requestId)
  end.
Proof.
  pose proof (generator_run (accepts client)) as Hgen.
  pose proof (pump_run client 0 (yielded whole_turn) []) as Hpump.
  unfold handleChatRequest.
  cbn [Relay.message Relay.requestId Relay.sessionId Relay.allowedTools
       Relay.workingDirectory Relay.permissionMode].
  destruct (first_refused (accepts client) 0 (yielded whole_turn)) as [j|].
  - destruct Hgen as [k ->]. destruct Hpump as (v & e & Hv & He & Hpump).
    exists v, e, k. cbn [completion delivered after]. by rewrite Hpump.
  - rewrite Hgen. cbn [completion delivered after]. rewrite Hpump.
    by destruct (outcome whole_turn) as [e|[]].
Qed.

(** X20.  When serialising never fails and the client never cancels, the
    response holds one chunk per event of the turn, in order, each the
    JSON text of the event followed by a line feed, and the stream is
    closed.  When the generator threw, the line of the [error] event that
    the handler makes of what was thrown comes last; the stream ends in
    error only when the handler cannot make that event. *)
Theorem relay_forwards_every_event (json : StreamResponse -> string)
  (Hjson : forall v, JSON_stringify client v = inr (json v))
  (Hstays : cancels_after client = None) :
  response
  = ({| chunks := (fun v => json v +:+ LF) <$> relayed whole_turn;
        ending := if reaches_close whole_turn then Closed else Errored |},
     world whole_turn).
Proof.
  assert (forall n v, accepts client n v = true) as Haccepts.
  { intros n v. unfold accepts, loop_body, usable.
    by rewrite Hjson, Hstays. }
  assert (forall n l, first_refused (accepts client) n l = None) as Hnone.
  { intros n l. revert n. induction l as [|v l IH]; intros n; [done |].
    cbn [first_refused]. by rewrite Haccepts, IH. }
  assert (forall l : list StreamResponse,
            line client <$> l = (fun v => json v +:+ LF) <$> l) as Hline.
  { intros l. apply list_fmap_ext. intros _ v _. unfold line.
    by rewrite Hjson. }
  pose proof handleChatRequest_run as Hrun. rewrite Hnone in Hrun.
  rewrite Hrun. unfold relayed, reaches_close. f_equal.
  destruct (outcome whole_turn) as [e|[]].
  - unfold on_error, loop_body, close, usable.
    destruct (Js.message_or_String e) as [e'|text].
    + by rewrite app_nil_r, Hline.
    + by rewrite Hjson, Hstays, fmap_app, Hline.
  - unfold close, usable. by rewrite Hstays, app_nil_r, Hline.
Qed.

Lemma on_error_unusable (enqueued : list string) (e : Js.Thrown) :
  usable client (length enqueued) = false ->
  on_error client enqueued e
  = {| chunks := enqueued; ending := Errored |}.
Proof.
  intros Hgone. unfold on_error, loop_body. rewrite Hgone.
  destruct (Js.message_or_String e); [done |].
  by destruct (JSON_stringify client _).
Qed.

Lemma on_error_chunks (enqueued : list string) (e : Js.Thrown) :
  exists tail,
    chunks (on_error client enqueued e) = enqueued ++ tail
    /\ (tail = [] \/ exists text, tail = [line client (Error text)])
    /\ (ending (on_error client enqueued e) = Closed -> tail <> []).
Proof.
  unfold on_error.
  destruct (Js.message_or_String e) as [e'|text].
  { exists []. cbn. rewrite app_nil_r. split; [done |].
    split; [by left | done]. }
  destruct (loop_body client (length enqueued) _) as [e'|data] eqn:Hbody.
  - exists []. cbn. rewrite app_nil_r. split; [done |].
    split; [by left | done].
  - apply loop_body_inr in Hbody as [-> _].
    eexists [_].
    split; [unfold close; by destruct (usable client _) |].
    split; [right; by eexists | done].
Qed.

Lemma whole_turn_released :
  requestAbortControllers (heap (world whole_turn)) !! requestId = None.
Proof.
  rewrite executeClaudeCommand_run. cbn [world]. apply lookup_delete_eq.
Qed.

(** X21.  Whatever the serialiser and the client do, the chunks of the
    response are the lines of an initial part of the events, followed by
    at most one line of an [error] event made by the handler; a stream
    that closes without such a line holds every event; and the map has no
    entry for [requestId] afterwards. *)
Theorem relay_chunks :
  exists n tail,
    n <= length (yielded whole_turn)
    /\ chunks (fst response)
       = (line client <$> take n (yielded whole_turn)) ++ tail
    /\ (tail = [] \/ exists text, tail = [line client (Error text)])
    /\ (ending (fst response) = Closed -> tail = [] ->
        n = length (yielded whole_turn))
    /\ requestAbortControllers (heap (snd response)) !! requestId = None.
Proof.
  pose proof handleChatRequest_run as Hrun.
  destruct (first_refused (accepts client) 0 (yielded whole_turn)) as [j|].
  - destruct Hrun as (v & e & k & Hv & _ & ->). cbn [fst snd].
    destruct (on_error_chunks
                (line client <$> take j (yielded whole_turn)) e)
      as (tail & Hchunks & Htail & Hclosed).
    exists j, tail.
    split; [apply lookup_lt_Some in Hv; lia |].
    split; [done |]. split; [done |].
    split; [by intros Hc Ht; destruct (Hclosed Hc) |].
    apply lookup_delete_eq.
  - rewrite Hrun. cbn [fst snd].
    exists (length (yielded whole_turn)).
    rewrite take_ge by done.
    destruct (outcome whole_turn) as [e|[]].
    + destruct (on_error_chunks (line client <$> yielded whole_turn) e)
        as (tail & Hchunks & Htail & Hclosed).
      exists tail. split; [done |]. split; [done |]. split; [done |].
      split; [done | apply whole_turn_released].
    + exists []. rewrite app_nil_r.
      split; [done |]. split; [| split; [by left |]].
      * unfold close.
        destruct (usable client
                    (length (line client <$> yielded whole_turn)))
          eqn:Husable; [done |].
        by rewrite on_error_unusable.
      * split; [done | apply whole_turn_released].
Qed.

(** The [catch] block of [start] for a client that cancels once [k]
    chunks are enqueued. *)
Lemma on_error_cancel (json : StreamResponse -> string) (k : nat)
  (enqueued : list string) (e : Js.Thrown) :
  (forall v, JSON_stringify client v = inr (json v)) ->
  cancels_after client = Some k ->
  length enqueued <= k ->
  let extra :=
    match Js.message_or_String e with
    | inr text => [json (Error text) +:+ LF]
    | inl _ => []
    end in
  chunks (on_error client enqueued e) = take k (enqueued ++ extra)
  /\ (ending (on_error client enqueued e) = Closed
      <-> (exists text, Js.message_or_String e = inr text)
          /\ length (enqueued ++ extra) < k).
Proof.
  intros Hjson Hcancel Hlen extra. subst extra.
  unfold on_error, loop_body, close, usable. rewrite Hcancel.
  destruct (Js.message_or_String e) as [e'|text].
  { rewrite app_nil_r, take_ge by lia. cbn [chunks ending].
    split; [done |]. split; [done | by intros [[? ?] _]]. }
  rewrite Hjson, length_app. cbn [length].
  destruct (length enqueued <? k) eqn:H1.
  - apply Nat.ltb_lt in H1. rewrite length_app. cbn [length].
    destruct (length enqueued + 1 <? k) eqn:H2; cbn [chunks ending].
    + apply Nat.ltb_lt in H2.
      rewrite take_ge by (rewrite length_app; cbn [length]; lia).
      split; [done |]. split; [| done].
      intros _. split; [by eexists | lia].
    + apply Nat.ltb_ge in H2.
      rewrite take_ge by (rewrite length_app; cbn [length]; lia).
      split; [done |]. split; [done | intros [_ ?]; lia].
  - apply Nat.ltb_ge in H1. cbn [chunks ending].
    rewrite take_app_le, take_ge by lia.
    split; [done |]. split; [done | intros [_ ?]; lia].
Qed.

(** X22.  When serialising never fails and the client cancels once [k]
    chunks are enqueued, the response holds the first [k] lines of the
    events that a client that stays would get, and no more; it is closed
    exactly when the handler gets as far as closing it and there are
    fewer than [k] such events, and ends in error otherwise. *)
Theorem relay_client_cancels (json : StreamResponse -> string) (k : nat)
  (Hjson : forall v, JSON_stringify client v = inr (json v))
  (Hcancel : cancels_after client = Some k) :
  chunks (fst response)
  = take k ((fun v => json v +:+ LF) <$> relayed whole_turn)
  /\ (ending (fst response) = Closed
      <-> reaches_close whole_turn = true
          /\ length (relayed whole_turn) < k)
  /\ requestAbortControllers (heap (snd response)) !! requestId = None.
Proof.
  assert (forall n, usable client n = (n <? k)) as Husable.
  { intros n. unfold usable. by rewrite Hcancel. }
  assert (forall l : list StreamResponse,
            line client <$> l = (fun v => json v +:+ LF) <$> l)
    as Hline.
  { intros l. apply list_fmap_ext. intros _ v _. unfold line.
    by rewrite Hjson. }
  assert (forall (l : list StreamResponse) n, n <= k ->
            first_refused (accepts client) n l
            = if decide (k < n + length l) then Some (k - n) else None)
    as Hfirst.
  { induction l as [|v l IH]; intros n Hn.
    - cbn. case_decide; [lia | done].
    - cbn [first_refused length]. unfold accepts, loop_body.
      rewrite Hjson, Husable.
      destruct (n <? k) eqn:Hlt.
      + apply Nat.ltb_lt in Hlt. rewrite IH by lia.
        repeat case_decide; try lia; [| done].
        cbn. f_equal. lia.
      + apply Nat.ltb_ge in Hlt. case_decide; [| lia].
        f_equal. lia. }
  pose proof handleChatRequest_run as Hrun.
  rewrite Hfirst in Hrun by lia. cbn [Nat.add] in Hrun.
  unfold relayed, reaches_close.
  case_decide as Hlen.
  - destruct Hrun as (v & e & k' & Hv & _ & ->). cbn [fst snd].
    rewrite Nat.sub_0_r.
    rewrite on_error_unusable.
    2: { rewrite Husable, length_fmap, length_take.
         apply Nat.ltb_ge. lia. }
    cbn [chunks ending]. rewrite Hline, fmap_take, fmap_app.
    rewrite take_app_le by (rewrite length_fmap; lia).
    split; [done |].
    split; [split; [done | rewrite length_app; lia] |].
    apply lookup_delete_eq.
  - rewrite Hrun. cbn [fst snd].
    split; [| split; [| apply whole_turn_released]].
    + destruct (outcome whole_turn) as [e|[]].
      * destruct (on_error_cancel json k
                    (line client <$> yielded whole_turn) e Hjson Hcancel)
          as [-> _]; [rewrite length_fmap; lia |].
        rewrite fmap_app, Hline. do 2 f_equal.
        by destruct (Js.message_or_String e).
      * rewrite app_nil_r, take_ge by (rewrite length_fmap; lia).
        unfold close. rewrite Husable, length_fmap.
        destruct (length (yielded whole_turn) <? k) eqn:Hlt;
          [apply Hline |].
        rewrite on_error_unusable; [apply Hline |].
        by rewrite Husable, length_fmap.
    + destruct (outcome whole_turn) as [e|[]].
      * destruct (on_error_cancel json k
                    (line client <$> yielded whole_turn) e Hjson Hcancel)
          as [_ ->]; [rewrite length_fmap; lia |].
        rewrite !length_app, length_fmap.
        destruct (Js.message_or_String e) as [e'|text]; cbn [length].
        -- split; [by intros [[? ?] _] | by intros [? _]].
        -- split; [by intros [_ ?] | intros [_ ?]; split; [by eexists | done]].
      * rewrite app_nil_r. unfold close. rewrite Husable, length_fmap.
        destruct (length (yielded whole_turn) <? k) eqn:Hlt.
        -- apply Nat.ltb_lt in Hlt. by cbn [ending].
        -- apply Nat.ltb_ge in Hlt. rewrite on_error_unusable.
           2: { rewrite Husable, length_fmap. by apply Nat.ltb_ge. }
           cbn [ending]. split; [done | intros [_ ?]; lia].
Qed.


End RelayFacts.

Section RelayWitnesses.
Import Runtime Relay Fixtures RelayFixtures.

Lemma relay_forwards_every_event_witness :
  (forall v, JSON_stringify patient_client v = inr (tag_of v))
  /\ cancels_after patient_client = None
  /\ fst (handleChatRequest patient_client
            {| message := "hello"; requestId := "r1"; sessionId := None;
               allowedTools := None; workingDirectory := None;
               permissionMode := None |}
            "/usr/bin/claude" (quiet_env three_messages) fresh_world)
     = {| chunks :=
            (fun v => tag_of v +:+ LF)
              <$> yielded
                    (Chat.executeClaudeCommand "hello" "r1"
                       "/usr/bin/claude" None None None None
                       (quiet_env three_messages) fresh_world);
          ending := Closed |}
  /\ fst (handleChatRequest patient_client
            {| message := "hello"; requestId := "r1"; sessionId := None;
               allowedTools := None; workingDirectory := None;
               permissionMode := None |}
            "/usr/bin/claude" (quiet_env (failing_run bare_object))
            fresh_world)
     = {| chunks := ["error" +:+ LF]; ending := Closed |}.
Proof.
  split; [reflexivity |]. split; [reflexivity |]. split.
  - exact (f_equal fst
      (relay_forwards_every_event (quiet_env three_messages) fresh_world
         "hello" "r1" "/usr/bin/claude" None None None None patient_client
         tag_of (fun _ => eq_refl) eq_refl)).
  - exact (f_equal fst
      (relay_forwards_every_event (quiet_env (failing_run bare_object))
         fresh_world "hello" "r1" "/usr/bin/claude" None None None None
         patient_client tag_of (fun _ => eq_refl) eq_refl)).
Defined.

Lemma relay_client_cancels_witness :
  (forall v, JSON_stringify (leaving_client 2) v = inr (tag_of v))
  /\ cancels_after (leaving_client 2) = Some 2
  /\ chunks
       (fst (handleChatRequest (leaving_client 2)
               {| message := "hello"; requestId := "r1";
                  sessionId := None; allowedTools := None;
                  workingDirectory := None; permissionMode := None |}
               "/usr/bin/claude" (quiet_env three_messages) fresh_world))
     = take 2
         ((fun v => tag_of v +:+ LF)
            <$> yielded
                  (Chat.executeClaudeCommand "hello" "r1"
                     "/usr/bin/claude" None None None None
                     (quiet_env three_messages) fresh_world)).
Proof.
  split; [reflexivity |]. split; [reflexivity |].
  exact (proj1
    (relay_client_cancels (quiet_env three_messages) fresh_world
       "hello" "r1" "/usr/bin/claude" None None None None
       (leaving_client 2) tag_of 2 (fun _ => eq_refl) eq_refl)).
Defined.

Lemma generator_against_consumer_witness :
  first_refused takes_one 0
    (yielded
       (Chat.executeClaudeCommand "hello" "r1" "/usr/bin/claude"
          None None None None (quiet_env three_messages) fresh_world))
  = Some 1
  /\ completion
       (Relay.executeClaudeCommand "hello" "r1" "/usr/bin/claude"
          None None None None (quiet_env three_messages) takes_one 0
          fresh_world)
     = Returns.
Proof.
  split; [reflexivity |].
  exact (proj1
    (proj2
       (generator_against_consumer (quiet_env three_messages) fresh_world
          "hello" "r1" "/usr/bin/claude" None None None None takes_one)
       1 eq_refl)).
Defined.





End RelayWitnesses.

Section CodeBlockWitnesses.
Import CodeBlocks RelayFixtures.

Lemma code_block_folding_witness :
  Forall (fun line => LF ∉ line) [[97%N]; [98%N]]
  /\ two_lines = concat ((fun line => line ++ [LF]) <$> [[97%N]; [98%N]])
  /\ lineCount {| language := TEXT; code := two_lines;
                  startIndex := 0; endIndex := 11 |} = 3.
Proof.
  assert (Forall (fun line => LF ∉ line) [[97%N]; [98%N]]) as Hlines.
  { repeat constructor; intros Hin;
      apply list_elem_of_singleton in Hin; discriminate Hin. }
  split; [exact Hlines |]. split; [reflexivity |].
  exact (proj1
    (proj2 (proj2
       (code_block_folding
          {| language := TEXT; code := two_lines;
             startIndex := 0; endIndex := 11 |}))
       [[97%N]; [98%N]] Hlines eq_refl)).
Defined.

Lemma parseCodeBlocks_text_witness :
  find_fence two_lines = None
  /\ exec two_lines 0 = None.
Proof.
  split; [reflexivity |].
  exact (proj1 (proj2 (proj2 (parseCodeBlocks_text two_lines))) eq_refl).
Defined.

Lemma parseCodeBlocks_covers_content_witness :
  length two_lines <= 9
  /\ parse_loop 9 two_lines 0 {| textParts := []; codeBlocks := [] |}
     = parseCodeBlocks two_lines.
Proof.
  assert (length two_lines <= 9) as Hfuel by (cbn; lia).
  split; [exact Hfuel |].
  exact (proj2 (parseCodeBlocks_covers_content two_lines) 9 Hfuel).
Defined.

End CodeBlockWitnesses.

(** * The rules filter of the transcript *)

Section RulesFilterFacts.

Import RulesFilter.

Lemma includes_infix_spec (s needle : list N) :
  includes s needle = true <-> exists pre post, s = pre ++ needle ++ post.
Proof.
  induction s as [| c s IH].
  - cbn [includes]. rewrite orb_false_r, starts_with_spec. split.
    + intros [rest Hrest]. by exists [], rest.
    + intros (pre & post & Heq). symmetry in Heq.
      apply app_eq_nil in Heq as [-> Heq].
      apply app_eq_nil in Heq as [-> ->]. by exists [].
  - cbn [includes]. rewrite orb_true_iff, starts_with_spec, IH. split.
    + intros [[rest Hrest] | (pre & post & Heq)].
      * by exists [], rest.
      * exists (c :: pre), post. by rewrite Heq.
    + intros ([| c' pre] & post & Heq).
      * left. by exists post.
      * right. exists pre, post. by injection Heq.
Qed.

Lemma includes_inside (pre s post needle : list N) :
  includes s needle = true -> includes (pre ++ s ++ post) needle = true.
Proof.
  rewrite !includes_infix_spec. intros (a & b & ->).
  exists (pre ++ a), (b ++ post). by rewrite <- !app_assoc.
Qed.

Lemma trim_start_suffix (s : list N) : exists pre, s = pre ++ trim_start s.
Proof.
  induction s as [| c s [pre IH]]; [by exists [] |].
  cbn [trim_start]. destruct (is_space c).
  - exists (c :: pre). by rewrite IH at 1.
  - by exists [].
Qed.

Lemma trim_infix (s : list N) : exists pre post, s = pre ++ trim s ++ post.
Proof.
  unfold trim.
  destruct (trim_start_suffix s) as [pre Hpre].
  destruct (trim_start_suffix (reverse (trim_start s))) as [post Hpost].
  exists pre, (reverse post).
  rewrite <- reverse_app, <- Hpost, reverse_involutive. exact Hpre.
Qed.

Lemma includes_trim (s needle : list N) :
  includes (trim s) needle = true -> includes s needle = true.
Proof.
  intros H. destruct (trim_infix s) as (pre & post & Heq).
  rewrite Heq. by apply includes_inside.
Qed.

(** Four dashes in a row, by position. *)
Lemma includes_dashes (s : list N) :
  includes s DASHES = true
  <-> exists i, forall j, j < 4 -> s !! (i + j) = Some 45%N.
Proof.
  rewrite includes_infix_spec. split.
  - intros (pre & post & ->). exists (length pre). intros j Hj.
    rewrite lookup_app_r by lia.
    replace (length pre + j - length pre) with j by lia.
    do 4 (destruct j as [| j]; [done |]). lia.
  - intros [i Hi]. exists (take i s), (drop 4 (drop i s)).
    rewrite <- (take_drop i s) at 1. f_equal.
    assert (Hd : forall j, j < 4 -> drop i s !! j = Some 45%N)
      by (intros j Hj; rewrite lookup_drop; by apply Hi).
    destruct (drop i s) as [| a [| b [| c [| d rest]]]].
    + by specialize (Hd 0 ltac:(lia)).
    + by specialize (Hd 1 ltac:(lia)).
    + by specialize (Hd 2 ltac:(lia)).
    + by specialize (Hd 3 ltac:(lia)).
    + pose proof (Hd 0 ltac:(lia)) as H0. pose proof (Hd 1 ltac:(lia)) as H1.
      pose proof (Hd 2 ltac:(lia)) as H2. pose proof (Hd 3 ltac:(lia)) as H3.
      cbn in H0, H1, H2, H3. by simplify_eq.
Qed.

(** No code unit of the separator after its own three dashes is a dash. *)
Lemma separator_tail (k : nat) :
  5 <= k -> units Chat.SEPARATOR !! k <> Some 45%N.
Proof.
  intros Hk.
  do 5 (destruct k as [| k]; [lia |]).
  do 15 (destruct k as [| k]; [by vm_compute |]).
  by vm_compute.
Qed.

(** The separator of the backend has three dashes, so that no run of four
    can begin, end or lie inside it. *)
Lemma no_dashes_in_injected_content (rules message : list N) :
  includes rules DASHES = false ->
  includes message DASHES = false ->
  includes (injected_content rules message) DASHES = false.
Proof.
  intros Hrules Hmessage.
  destruct (includes (injected_content rules message) DASHES) eqn:Hall;
    [| done].
  exfalso. apply includes_dashes in Hall as [i Hi].
  unfold injected_content in Hi.
  assert (Hlen : length (units Chat.SEPARATOR) = 20) by by vm_compute.
  destruct (decide (i + 3 < length rules)) as [Hin | Hout].
  - assert (includes rules DASHES = true); [| congruence].
    apply includes_dashes. exists i. intros j Hj.
    rewrite <- (Hi j Hj). by rewrite lookup_app_l by lia.
  - destruct (decide (length rules + 20 <= i)) as [Hfar | Hnear].
    + assert (includes message DASHES = true); [| congruence].
      apply includes_dashes. exists (i - length rules - 20).
      intros j Hj. rewrite <- (Hi j Hj).
      rewrite lookup_app_r by lia. rewrite lookup_app_r by lia.
      f_equal. lia.
    + assert (Hsep : forall k, k < 20 -> i <= length rules + k < i + 4 ->
                units Chat.SEPARATOR !! k = Some 45%N).
      { intros k Hk Hrange.
        specialize (Hi (length rules + k - i) ltac:(lia)).
        replace (i + (length rules + k - i)) with (length rules + k) in Hi
          by lia.
        rewrite lookup_app_r in Hi by lia.
        rewrite lookup_app_l in Hi by lia.
        by replace (length rules + k - length rules) with k in Hi by lia. }
      destruct (decide (i <= length rules)) as [H0 | H0].
      { by specialize (Hsep 0 ltac:(lia) ltac:(lia)). }
      destruct (decide (i = length rules + 1)) as [H1 | H1].
      { by specialize (Hsep 1 ltac:(lia) ltac:(lia)). }
      destruct (decide (i <= length rules + 5)) as [H5 | H5].
      { by specialize (Hsep 5 ltac:(lia) ltac:(lia)). }
      specialize (Hsep (i - length rules) ltac:(lia) ltac:(lia)).
      by apply separator_tail in Hsep; [| lia].
Qed.

(** X23. The prompt that the backend builds, the rules, the separator of
    three dashes and the message, is not recognised as a rules message by
    the transcript, which looks for four dashes, unless the rules or the
    message themselves contain four dashes in a row; as a chat message it is
    therefore rendered, whatever its role, its length and its headings. *)
Theorem injected_prompt_is_not_hidden
    (role : list N) (rules message : list N)
    (Hrules : includes rules DASHES = false)
    (Hmessage : includes message DASHES = false) :
  let shown := {| role := role;
                  content := injected_content rules message |} in
  isRulesMessage true shown = false /\ rendered true shown = true.
Proof.
  intros shown.
  assert (Hno : isRulesMessage true shown = false).
  { unfold isRulesMessage. cbn [negb content RulesFilter.role shown].
    destruct (bool_decide (role = USER)); [| done]. cbn [negb].
    destruct (includes (trim (injected_content rules message)) DASHES)
      eqn:Hdash; [| done].
    apply includes_trim in Hdash.
    by rewrite no_dashes_in_injected_content in Hdash. }
  split; [exact Hno |]. unfold rendered. by rewrite Hno.
Qed.

(** X24. A message is hidden as a rules message only if it is a chat
    message of the user whose content contains four dashes in a row and one
    of the two user-message markers, and either begins (after trimming) with
    a hash, names the safety rules, or is longer than 500 code units;
    messages of any other role are rendered whenever they are chat
    messages. *)
Theorem hidden_message_requirements
    (isChatMessage : bool) (message : ChatMessage) :
  (isRulesMessage isChatMessage message = true ->
   isChatMessage = true
   /\ role message = USER
   /\ includes (content message) DASHES = true
   /\ (includes (content message) USER_MESSAGE = true
       \/ includes (content message) USER_MESSAGE_ZH = true)
   /\ (CodeBlocks.starts_with HASH (trim (content message)) = true
       \/ includes (content message) SAFETY_RULES_ZH = true
       \/ includes (content message) SAFETY_PRINCIPLES_ZH = true
       \/ 500 < length (trim (content message))))
  /\ (role message <> USER ->
      rendered isChatMessage message = isChatMessage).
Proof.
  split.
  - unfold isRulesMessage.
    destruct isChatMessage; [| done]. cbn [negb].
    case_bool_decide as Hrole; [| done]. cbn [negb].
    rewrite !andb_true_iff, !orb_true_iff, !andb_true_iff.
    intros [[Hdash Hmark] Hhead].
    split; [done |]. split; [done |].
    split; [by apply includes_trim |].
    split.
    + destruct Hmark as [H | H]; apply includes_trim in H; tauto.
    + destruct Hhead as [[[H | H] | H] | [[H _] _]].
      * by left.
      * right; left. by apply includes_trim.
      * right; right; left. by apply includes_trim.
      * right; right; right. by apply Nat.ltb_lt.
  - intros Hrole. unfold rendered, isRulesMessage.
    destruct isChatMessage; [| done]. cbn [negb andb].
    by rewrite bool_decide_eq_false_2.
Qed.

End RulesFilterFacts.

Section RulesFilterWitnesses.

Import RulesFilter RelayFixtures.

Lemma injected_prompt_is_not_hidden_witness :
  includes short_rules DASHES = false
  /\ includes short_message DASHES = false
  /\ rendered true {| role := USER;
                      content := injected_content short_rules
                                   short_message |} = true.
Proof.
  split; [reflexivity |]. split; [reflexivity |].
  exact (proj2 (injected_prompt_is_not_hidden USER short_rules short_message
                  eq_refl eq_refl)).
Defined.

Lemma hidden_message_requirements_witness :
  isRulesMessage true
    {| role := USER;
       content := units "# Rules ---- User message: hello" |} = true
  /\ includes (units "# Rules ---- User message: hello") DASHES = true.
Proof.
  split; [reflexivity |].
  exact (proj1 (proj2 (proj2
    (proj1 (hidden_message_requirements true
              {| role := USER;
                 content := units "# Rules ---- User message: hello" |})
       eq_refl)))).
Defined.

End RulesFilterWitnesses.
